(** * Horus: the dev-server process supervisor

    A shallow embedding of [src/processManager.js] together with the two
    helper modules it requires, [src/utils/portChecker.js] and
    [src/utils/pathResolver.js], and the part of [src/config.js] it reads.

    The supervisor is event driven.  The embedding keeps the JavaScript
    objects as explicit state: the [Map] of tracked processes, the heap of
    [ChildProcess] objects with the listeners attached to each of them, and
    the promises returned by [start] and [stop].  Every callback of the
    source is a handler of the transition function [step]; which callback
    runs next is chosen by the environment (the Node event loop and the
    operating system), so properties are stated for all event sequences. *)

From Stdlib Require Import ZArith Lia Ascii String.
From stdpp Require Import gmap strings list fin_maps pretty.

Open Scope Z_scope.

(** ** Values shared by the modules *)

(** The [Error] objects thrown synchronously or through a rejected
    [async] function, one constructor per message template. *)
Inductive JsError :=
| DirectoryDoesNotExist (absolutePath : string)
  (* Error(`Directory does not exist: ${absolutePath}`) *)
| NoPackageJsonFound (absolutePath : string)
  (* Error(`No package.json found in: ${absolutePath}`) *)
| NoAvailablePorts (startPort endPort : Z)
  (* Error(`No available ports found in range ${startPort}-${endPort}`) *)
| NoProcessFound (processId : Z)
  (* Error(`No process found with ID: ${processId}`) *)
| ReferenceError (identifier : string).
  (* ReferenceError: <identifier> is not defined *)

Inductive result (A : Type) :=
| Ok (a : A)
| Err (e : JsError).
Arguments Ok {A} a.
Arguments Err {A} e.

(** The error classes of the specification, read off the messages. *)
Definition isInvalidProjectError (e : JsError) : bool :=
  match e with
  | DirectoryDoesNotExist _ | NoPackageJsonFound _ => true
  | _ => false
  end.

Definition isNotFoundError (e : JsError) : bool :=
  match e with
  | NoProcessFound _ => true
  | _ => false
  end.

Definition isPortExhaustedError (e : JsError) : bool :=
  match e with
  | NoAvailablePorts _ _ => true
  | _ => false
  end.

(** ** The file system and Node's [path] module *)

Record PackageJson := {
  scripts : option (gmap string string)
}.

Inductive FileContent :=
| JsonManifest (manifest : PackageJson)   (* JSON.parse succeeds *)
| OtherContent (text : string).           (* JSON.parse throws *)

Inductive FsEntry :=
| Directory
| File (content : FileContent).

(** Node's [path] functions are taken as they come; [process.cwd()] is
    part of the same record. *)
Record PathModule := {
  path_isAbsolute : string → bool;
  path_normalize : string → string;
  path_resolve : string → string → string;
  path_join : string → string → string;
  process_cwd : string
}.

Module PathResolver.

(** [pathStr.replace(/\\/g, '/')] *)
Fixpoint replaceBackslashes (s : string) : string :=
  match s with
  | EmptyString => EmptyString
  | String c rest =>
      String (if Ascii.eqb c "\"%char then "/"%char else c)
             (replaceBackslashes rest)
  end.

Definition normalizePath (P : PathModule) (pathStr : string) : string :=
  replaceBackslashes (path_normalize P pathStr).

Definition resolveAbsolutePath (P : PathModule) (pathStr : string) : string :=
  if path_isAbsolute P pathStr
  then normalizePath P pathStr
  else normalizePath P (path_resolve P (process_cwd P) pathStr).

(** [fs.existsSync] *)
Definition existsSync (fs : gmap string FsEntry) (p : string) : bool :=
  bool_decide (is_Some (fs !! p)).

(** The [catch] block logs and rethrows, so the thrown error is the
    result. *)
Definition validateProjectPath (P : PathModule) (fs : gmap string FsEntry)
    (projectPath : string) : result bool :=
  let absolutePath := resolveAbsolutePath P projectPath in
  let packageJsonPath := path_join P absolutePath "package.json" in
  if negb (existsSync fs absolutePath)
  then Err (DirectoryDoesNotExist absolutePath)
  else if negb (existsSync fs packageJsonPath)
  then Err (NoPackageJsonFound absolutePath)
  else Ok true.

End PathResolver.

(** ** [utils/portChecker.js] *)

Module PortChecker.

(** [isPortAvailable] binds the port and releases it; it resolves [true]
    when the bind succeeds and [false] on every bind error.  The state of
    the operating system's port space is the function [available]. *)
Definition isPortAvailable (available : Z → bool) (port : Z) : bool :=
  available port.

(** The [for] loop of [findAvailablePort], [n] iterations left. *)
Fixpoint scanPorts (available : Z → bool) (n : nat) (port : Z) : option Z :=
  match n with
  | O => None
  | S n' =>
      if isPortAvailable available port
      then Some port
      else scanPorts available n' (port + 1)
  end.

Definition findAvailablePort (available : Z → bool) (startPort endPort : Z)
    : result Z :=
  match scanPorts available (Z.to_nat (endPort - startPort + 1)) startPort with
  | Some port => Ok port
  | None => Err (NoAvailablePorts startPort endPort)
  end.

End PortChecker.

(** ** [config.js], the [app] section read by the supervisor *)

Record Config := {
  defaultPort : Z;       (* parseInt(DEFAULT_APP_PORT) || 3000 *)
  startupTimeout : Z     (* parseInt(STARTUP_TIMEOUT) || 60000 *)
}.

Definition defaultConfig : Config :=
  {| defaultPort := 3000; startupTimeout := 60000 |}.

(** ** [processManager.js]: data *)

Inductive Signal := SIGTERM | SIGKILL.

(** Values of environment variables: strings, and the number [start]
    stores under [PORT]. *)
Inductive EnvValue :=
| EnvString (s : string)
| EnvNumber (n : Z).

Record StartOptions := {
  opt_port : option Z;
  opt_env : option (gmap string EnvValue)
}.

(** [processInfo]; [pi_process] is the reference to the [ChildProcess]
    object, an index in the heap of children. *)
Record ProcessInfo := {
  pi_id : Z;
  pi_port : Z;
  pi_projectPath : string;
  pi_startTime : Z;
  pi_process : nat
}.

(** What [getProcessInfo] hands out: [{ ...processInfo, process: undefined }]. *)
Record ProcessView := {
  v_id : Z;
  v_port : Z;
  v_projectPath : string;
  v_startTime : Z
}.

(** The values passed to [reject] in the readiness race. *)
Inductive Rejection :=
| ServerDidNotStart (ms : Z)
  (* Error(`Server did not start within ${config.app.startupTimeout}ms`) *)
| PortDidNotBecomeAvailable (port : Z)
  (* Error(`Port ${port} did not become available within timeout`) *)
| ExitCode (code : option Z)
  (* onError as the 'exit' listener: the first argument of the event, the
     exit code, or null when the child was ended by a signal *)
| ChildError (err : string).
  (* onError as the 'error' listener *)

Inductive Settlement :=
| Resolved (info : ProcessInfo)
| Rejected (reason : Rejection).

(** The promise of the readiness race with everything its executor
    installs. A JavaScript promise keeps its first settlement; later calls
    of [resolve] or [reject] are ignored.  [settleCalls] records every call
    all the same. *)
Record Race := {
  timeoutArmed : bool;          (* setTimeout(..., startupTimeout) *)
  exitListener : bool;          (* child.on('exit', onError) *)
  errorListener : bool;         (* child.on('error', onError) *)
  checkReadyListener : bool;    (* child.stdout.on('data', checkReady) *)
  pollerActive : bool;          (* the checkPort loop of waitForPort *)
  settleCalls : list Settlement;
  outcome : option Settlement
}.

Record SpawnArgs := {
  sp_command : string;
  sp_args : list string;
  sp_cwd : string;
  sp_env : gmap string EnvValue
}.

(** A [ChildProcess] object of a child that was spawned and has a pid
    (a spawn that fails outright leaves [child.pid] undefined and is not
    modelled). [c_kills] lists the calls of [kill] made on it, oldest
    first. *)
Record Child := {
  c_pid : Z;
  c_spawn : SpawnArgs;
  c_info : ProcessInfo;
  c_timeout : Z;                (* config.app.startupTimeout at spawn *)
  c_exited : bool;              (* 'exit' was emitted *)
  c_closed : bool;              (* 'close' was emitted *)
  c_kills : list Signal;
  c_race : Race
}.

(** One call of [stop] that got past the lookup: its promise, its 'close'
    listener and its escalation timer. *)
Record StopCall := {
  st_processId : Z;
  st_child : nat;               (* processInfo.process *)
  st_due : Z;                   (* when the 5000ms timer may fire *)
  st_timerArmed : bool;
  st_resolved : bool
}.

Record Manager := {
  config : Config;
  clock : Z;                            (* Date.now(), in ms *)
  processes : gmap Z ProcessInfo;       (* this.processes *)
  children : list Child;
  stopCalls : list StopCall
}.

Definition newManager (cfg : Config) : Manager :=
  {| config := cfg; clock := 0; processes := ∅; children := [];
     stopCalls := [] |}.

(** What [start] reads from its surroundings. *)
Record World := {
  pathModule : PathModule;
  fileSystem : gmap string FsEntry;
  portAvailable : Z → bool;
  processEnv : gmap string EnvValue;
  platform : string;
  nextPid : Z                   (* the pid the next spawned child gets *)
}.

(** Field updates. *)
Definition withRace (r : Race) (ch : Child) : Child :=
  {| c_pid := c_pid ch; c_spawn := c_spawn ch; c_info := c_info ch;
     c_timeout := c_timeout ch; c_exited := c_exited ch;
     c_closed := c_closed ch; c_kills := c_kills ch; c_race := r |}.

Definition markExited (ch : Child) : Child :=
  {| c_pid := c_pid ch; c_spawn := c_spawn ch; c_info := c_info ch;
     c_timeout := c_timeout ch; c_exited := true;
     c_closed := c_closed ch; c_kills := c_kills ch; c_race := c_race ch |}.

Definition markClosed (ch : Child) : Child :=
  {| c_pid := c_pid ch; c_spawn := c_spawn ch; c_info := c_info ch;
     c_timeout := c_timeout ch; c_exited := c_exited ch;
     c_closed := true; c_kills := c_kills ch; c_race := c_race ch |}.

(** [child.kill(signal)] *)
Definition killChild (sig : Signal) (ch : Child) : Child :=
  {| c_pid := c_pid ch; c_spawn := c_spawn ch; c_info := c_info ch;
     c_timeout := c_timeout ch; c_exited := c_exited ch;
     c_closed := c_closed ch; c_kills := c_kills ch ++ [sig];
     c_race := c_race ch |}.

Definition withChildren (cs : list Child) (m : Manager) : Manager :=
  {| config := config m; clock := clock m; processes := processes m;
     children := cs; stopCalls := stopCalls m |}.

Definition withStopCalls (ss : list StopCall) (m : Manager) : Manager :=
  {| config := config m; clock := clock m; processes := processes m;
     children := children m; stopCalls := ss |}.

Definition withClock (t : Z) (m : Manager) : Manager :=
  {| config := config m; clock := t; processes := processes m;
     children := children m; stopCalls := stopCalls m |}.

Definition updateChild (c : nat) (f : Child → Child) (m : Manager) : Manager :=
  withChildren (alter f c (children m)) m.

(** ** [processManager.js]: the class [DevServerManager] *)

Module ProcessManager.

(** The names bound at the top of [processManager.js]: the [require]
    destructurings of lines 1 to 8 and the class itself. A free
    identifier of a method body is looked up here; looking up any other
    name throws a [ReferenceError]. *)
Definition moduleBindings : list string :=
  [ "spawn"; "path"; "fs"; "EventEmitter";
    "isPortAvailable"; "waitForPort";
    "validateProjectPath"; "resolveAbsolutePath";
    "logger"; "config"; "DevServerManager" ]%string.

Definition isBound (identifier : string) : bool :=
  bool_decide (identifier ∈ moduleBindings).

(** [fs.promises.access(p).then(() => true).catch(() => false)] *)
Definition access (fs : gmap string FsEntry) (p : string) : bool :=
  bool_decide (is_Some (fs !! p)).

(** [JSON.parse(await fs.promises.readFile(p, 'utf8'))]; [None] when
    either step throws. *)
Definition readPackageJson (fs : gmap string FsEntry) (p : string)
    : option PackageJson :=
  match fs !! p with
  | Some (File (JsonManifest manifest)) => Some manifest
  | _ => None
  end.

(** [packageJson.scripts && packageJson.scripts.dev]: the scripts object
    is there and its [dev] entry is a non-empty string. *)
Definition hasDevScript (manifest : PackageJson) : bool :=
  match scripts manifest with
  | Some table =>
      match table !! "dev"%string with
      | Some command => negb (String.eqb command "")
      | None => false
      end
  | None => false
  end.

Definition detectPackageManager (P : PathModule) (fs : gmap string FsEntry)
    (projectPath : string) : string :=
  let absolutePath := PathResolver.resolveAbsolutePath P projectPath in
  let pnpmLockPath := path_join P absolutePath "pnpm-lock.yaml" in
  let yarnLockPath := path_join P absolutePath "yarn.lock" in
  let packageLockPath := path_join P absolutePath "package-lock.json" in
  let hasPnpmLock := access fs pnpmLockPath in
  let hasYarnLock := access fs yarnLockPath in
  let hasPackageLock := access fs packageLockPath in
  if hasPnpmLock then "pnpm"
  else if hasYarnLock then "yarn"
  else if hasPackageLock then "npm"
  else
    let packageJsonPath := path_join P absolutePath "package.json" in
    match readPackageJson fs packageJsonPath with
    | Some packageJson =>
        if hasDevScript packageJson
        then "npm"            (* line 56 *)
        else "npm"            (* line 64 *)
    | None => "npm"           (* the inner catch, then line 64 *)
    end.

(** The method [findAvailablePort(startPort = config.app.defaultPort)].
    Its second branch calls the free identifier [findAvailablePort]. *)
Definition findAvailablePort (available : Z → bool) (startPort : Z)
    : result Z :=
  if PortChecker.isPortAvailable available startPort
  then Ok startPort
  else if isBound "findAvailablePort"
  then PortChecker.findAvailablePort available startPort (startPort + 100)
  else Err (ReferenceError "findAvailablePort").

(** [options.port || await this.findAvailablePort()]; the number 0 is
    falsy. *)
Definition resolvePort (cfg : Config) (available : Z → bool)
    (options : StartOptions) : result Z :=
  match opt_port options with
  | Some p => if p =? 0
              then findAvailablePort available (defaultPort cfg)
              else Ok p
  | None => findAvailablePort available (defaultPort cfg)
  end.

(** [{ ...process.env, PORT: port, BROWSER: 'none', FORCE_COLOR: '1',
      ...options.env }]: later entries overwrite earlier ones; spreading
    [undefined] adds nothing. *)
Definition spread (later : gmap string EnvValue) (obj : gmap string EnvValue)
    : gmap string EnvValue :=
  later ∪ obj.

Definition composeEnv (inherited : gmap string EnvValue) (port : Z)
    (optionsEnv : option (gmap string EnvValue)) : gmap string EnvValue :=
  let e0 := spread inherited ∅ in
  let e1 := <["PORT"%string := EnvNumber port]> e0 in
  let e2 := <["BROWSER"%string := EnvString "none"]> e1 in
  let e3 := <["FORCE_COLOR"%string := EnvString "1"]> e2 in
  match optionsEnv with
  | Some overrides => spread overrides e3
  | None => e3
  end.

(** [haystack.includes(needle)] *)
Fixpoint includes (needle haystack : string) : bool :=
  if String.prefix needle haystack then true
  else match haystack with
       | EmptyString => false
       | String _ rest => includes needle rest
       end.

(** The condition of [checkReady]. *)
Definition isReadyOutput (port : Z) (output : string) : bool :=
  includes "ready - started server on" output
  || includes "Compiled successfully" output
  || includes ("Local:   http://localhost:" +:+ pretty port) output.

(** *** The callbacks of the readiness race *)

Definition cleanup (r : Race) : Race :=
  {| timeoutArmed := false;               (* clearTimeout(timeout) *)
     exitListener := false;               (* removeListener('exit', onError) *)
     errorListener := false;              (* removeListener('error', onError) *)
     checkReadyListener := false;         (* stdout.removeListener('data', ...) *)
     pollerActive := pollerActive r;
     settleCalls := settleCalls r;
     outcome := outcome r |}.

(** [resolve(v)] and [reject(v)] *)
Definition settle (s : Settlement) (r : Race) : Race :=
  {| timeoutArmed := timeoutArmed r;
     exitListener := exitListener r;
     errorListener := errorListener r;
     checkReadyListener := checkReadyListener r;
     pollerActive := pollerActive r;
     settleCalls := settleCalls r ++ [s];
     outcome := match outcome r with
                | None => Some s
                | Some first => Some first
                end |}.

Definition stopPolling (r : Race) : Race :=
  {| timeoutArmed := timeoutArmed r;
     exitListener := exitListener r;
     errorListener := errorListener r;
     checkReadyListener := checkReadyListener r;
     pollerActive := false;
     settleCalls := settleCalls r;
     outcome := outcome r |}.

Definition onListening (info : ProcessInfo) (r : Race) : Race :=
  settle (Resolved info) (cleanup r).

Definition onError (reason : Rejection) (r : Race) : Race :=
  settle (Rejected reason) (cleanup r).

(** The callback of the startup timer. *)
Definition onStartupTimeout (ch : Child) : Child :=
  if timeoutArmed (c_race ch)
  then withRace (settle (Rejected (ServerDidNotStart (c_timeout ch)))
                        (cleanup (c_race ch))) ch
  else ch.

(** A chunk on the child's stdout reaches [checkReady] while it is
    attached. (The first 'data' listener only logs and re-emits.) *)
Definition onStdoutData (data : string) (ch : Child) : Child :=
  if checkReadyListener (c_race ch)
  then if isReadyOutput (pi_port (c_info ch)) data
       then withRace (onListening (c_info ch) (c_race ch)) ch
       else ch
  else ch.

(** The child emits 'exit' with its code. *)
Definition onChildExit (code : option Z) (ch : Child) : Child :=
  let ch' := markExited ch in
  if exitListener (c_race ch)
  then withRace (onError (ExitCode code) (c_race ch)) ch'
  else ch'.

(** The child emits 'error' while [onError] is attached. (An 'error'
    emitted with no listener left makes the emitter throw; that crash of
    the supervisor is outside this model.) *)
Definition onChildError (err : string) (ch : Child) : Child :=
  if errorListener (c_race ch)
  then withRace (onError (ChildError err) (c_race ch)) ch
  else ch.

(** One run of [checkPort] in [waitForPort(port, startupTimeout)], with
    the answer of [isPortAvailable] and the current time. The emitter's
    'listening' listener is [onListening]; its 'timeout' listener cleans
    up and rejects. [waitForPort] reads its own [startTime] in the same
    synchronous run in which [processInfo.startTime] was taken, so the two
    are the same instant here. *)
Definition onPortPoll (available : bool) (now : Z) (ch : Child) : Child :=
  if pollerActive (c_race ch)
  then if negb available
       then withRace (onListening (c_info ch) (stopPolling (c_race ch))) ch
       else if c_timeout ch <=? now - pi_startTime (c_info ch)
       then withRace (settle (Rejected (PortDidNotBecomeAvailable
                                          (pi_port (c_info ch))))
                             (cleanup (stopPolling (c_race ch)))) ch
       else ch                            (* setTimeout(checkPort, 100) *)
  else ch.

(** *** [start] *)

Definition armedRace : Race :=
  {| timeoutArmed := true; exitListener := true; errorListener := true;
     checkReadyListener := true; pollerActive := true;
     settleCalls := []; outcome := None |}.

(** [start] up to the [await] of the readiness promise, taken as one
    step: it either throws before spawning or leaves a child whose race
    decides the call. The value [Ok c] says that the call now awaits the
    race of child [c]; the [catch] block rethrows, so the race's
    rejection is the rejection of [start]. *)
Definition start (w : World) (projectPath : string) (options : StartOptions)
    (m : Manager) : Manager * result nat :=
  let absolutePath :=
    PathResolver.resolveAbsolutePath (pathModule w) projectPath in
  match PathResolver.validateProjectPath (pathModule w) (fileSystem w)
                                         absolutePath with
  | Err e => (m, Err e)
  | Ok _ =>
      match resolvePort (config m) (portAvailable w) options with
      | Err e => (m, Err e)
      | Ok port =>
          let packageManager :=
            detectPackageManager (pathModule w) (fileSystem w) absolutePath in
          let env := composeEnv (processEnv w) port (opt_env options) in
          let isWindows := String.eqb (platform w) "win32" in
          let command := if isWindows then "cmd.exe"%string
                         else packageManager in
          let args := if isWindows
                      then [ "/c"; packageManager +:+ ".cmd"; "run"; "dev" ]
                      else [ "run"; "dev" ]%string in
          let c := length (children m) in
          let processId := nextPid w in
          let processInfo :=
            {| pi_id := processId; pi_port := port;
               pi_projectPath := absolutePath; pi_startTime := clock m;
               pi_process := c |} in
          let child :=
            {| c_pid := processId;
               c_spawn := {| sp_command := command; sp_args := args;
                             sp_cwd := absolutePath; sp_env := env |};
               c_info := processInfo;
               c_timeout := startupTimeout (config m);
               c_exited := false; c_closed := false; c_kills := [];
               c_race := armedRace |} in
          ({| config := config m; clock := clock m;
              processes := <[processId := processInfo]> (processes m);
              children := children m ++ [child];
              stopCalls := stopCalls m |},
           Ok c)
      end
  end.


(** *** [stop], [stopAll], [getProcessInfo] *)

Definition escalationDelay : Z := 5000.

(** [Ok k] says that the promise of stop call [k] was returned. *)
Definition stop (processId : Z) (m : Manager) : Manager * result nat :=
  match processes m !! processId with
  | None => (m, Err (NoProcessFound processId))
  | Some processInfo =>
      let k := length (stopCalls m) in
      let call :=
        {| st_processId := processId; st_child := pi_process processInfo;
           st_due := clock m + escalationDelay;
           st_timerArmed := true; st_resolved := false |} in
      (updateChild (pi_process processInfo) (killChild SIGTERM)
                   (withStopCalls (stopCalls m ++ [call]) m),
       Ok k)
  end.

(** The loop of [stopAll] over [this.processes.keys()]. *)
Fixpoint stopEach (keys : list Z) (m : Manager) : Manager * list (result nat) :=
  match keys with
  | [] => (m, [])
  | processId :: rest =>
      let (m1, promise) := stop processId m in
      let (m2, promises) := stopEach rest m1 in
      (m2, promise :: promises)
  end.

(** A [Map] iterates in insertion order and [map_to_list] in the order of
    the finite map; the order only decides how the stop calls are
    numbered and in which order the children get their signal. *)
Definition stopAll (m : Manager) : Manager * list (result nat) :=
  stopEach (map_to_list (processes m)).*1 m.

(** [Promise.all(stopPromises)]: rejected as soon as one promise is,
    resolved once all are. [None] while pending. *)
Definition stopResolved (m : Manager) (k : nat) : bool :=
  match stopCalls m !! k with
  | Some call => st_resolved call
  | None => false
  end.

Fixpoint promiseAll (m : Manager) (promises : list (result nat))
    : option (result unit) :=
  match promises with
  | [] => Some (Ok tt)
  | Err e :: _ => Some (Err e)
  | Ok k :: rest =>
      match promiseAll m rest with
      | Some (Err e) => Some (Err e)
      | Some (Ok _) => if stopResolved m k then Some (Ok tt) else None
      | None => None
      end
  end.

Definition getProcessInfo (processId : Z) (m : Manager) : result ProcessView :=
  match processes m !! processId with
  | None => Err (NoProcessFound processId)
  | Some processInfo =>
      Ok {| v_id := pi_id processInfo; v_port := pi_port processInfo;
            v_projectPath := pi_projectPath processInfo;
            v_startTime := pi_startTime processInfo |}
  end.

(** *** Events on tracked children *)

(** The 'close' listener added by [stop]: [this.processes.delete] and
    [resolve]. *)
Definition stopCloseListener (c : nat) (ps : gmap Z ProcessInfo)
    (call : StopCall) : gmap Z ProcessInfo :=
  if bool_decide (st_child call = c)
  then delete (st_processId call) ps
  else ps.

Definition resolveStop (c : nat) (call : StopCall) : StopCall :=
  if bool_decide (st_child call = c)
  then {| st_processId := st_processId call; st_child := st_child call;
          st_due := st_due call; st_timerArmed := st_timerArmed call;
          st_resolved := true |}
  else call.

(** The child emits 'close': first the listener [start] attached at
    line 118, then the listeners of the [stop] calls in the order they
    were attached. *)
Definition onChildClose (c : nat) (m : Manager) : Manager :=
  match children m !! c with
  | None => m
  | Some ch =>
      let ps0 := delete (c_pid ch) (processes m) in
      {| config := config m; clock := clock m;
         processes := foldl (stopCloseListener c) ps0 (stopCalls m);
         children := alter markClosed c (children m);
         stopCalls := map (resolveStop c) (stopCalls m) |}
  end.

Definition disarm (call : StopCall) : StopCall :=
  {| st_processId := st_processId call; st_child := st_child call;
     st_due := st_due call; st_timerArmed := false;
     st_resolved := st_resolved call |}.

(** The callback of the timer set by [stop]. Nothing clears that timer,
    so it is armed until it fires. *)
Definition onEscalation (k : nat) (m : Manager) : Manager :=
  match stopCalls m !! k with
  | Some call =>
      if st_timerArmed call
      then
        let m' := withStopCalls (alter disarm k (stopCalls m)) m in
        if bool_decide (is_Some (processes m !! st_processId call))
        then updateChild (st_child call) (killChild SIGKILL) m'
        else m'
      else m
  | None => m
  end.

Inductive Event :=
| Tick (ms : N)                              (* time passes *)
| StartupTimerFires (c : nat)
| StdoutData (c : nat) (data : string)
| ChildExits (c : nat) (code : option Z)
| ChildErrors (c : nat) (err : string)
| ChildCloses (c : nat)
| PortPolled (c : nat) (available : bool)
| EscalationTimerFires (k : nat).

Definition step (m : Manager) (e : Event) : Manager :=
  match e with
  | Tick ms => withClock (clock m + Z.of_N ms) m
  | StartupTimerFires c => updateChild c onStartupTimeout m
  | StdoutData c data => updateChild c (onStdoutData data) m
  | ChildExits c code => updateChild c (onChildExit code) m
  | ChildErrors c err => updateChild c (onChildError err) m
  | ChildCloses c => onChildClose c m
  | PortPolled c available =>
      updateChild c (onPortPoll available (clock m)) m
  | EscalationTimerFires k => onEscalation k m
  end.

Definition run (m : Manager) (events : list Event) : Manager :=
  foldl step m events.

(** What the runtime can deliver: a timer fires once, while armed and
    not before it is due; a child exits once; 'close' comes once, after
    the process has ended; the poll loop runs while it has not returned. *)
Definition enabled (m : Manager) (e : Event) : bool :=
  match e with
  | Tick _ => true
  | StartupTimerFires c =>
      match children m !! c with
      | Some ch => timeoutArmed (c_race ch)
                   && (pi_startTime (c_info ch) + c_timeout ch <=? clock m)
      | None => false
      end
  | StdoutData c _ | ChildErrors c _ =>
      match children m !! c with
      | Some ch => negb (c_closed ch)
      | None => false
      end
  | ChildExits c _ =>
      match children m !! c with
      | Some ch => negb (c_exited ch)
      | None => false
      end
  | ChildCloses c =>
      match children m !! c with
      | Some ch => c_exited ch && negb (c_closed ch)
      | None => false
      end
  | PortPolled c _ =>
      match children m !! c with
      | Some ch => pollerActive (c_race ch)
      | None => false
      end
  | EscalationTimerFires k =>
      match stopCalls m !! k with
      | Some call => st_timerArmed call && (st_due call <=? clock m)
      | None => false
      end
  end.

Fixpoint deliverable (m : Manager) (events : list Event) : bool :=
  match events with
  | [] => true
  | e :: rest => enabled m e && deliverable (step m e) rest
  end.

(** Calls of the public methods interleaved with events. *)
Inductive Action :=
| CallStart (w : World) (projectPath : string) (options : StartOptions)
| CallStop (processId : Z)
| CallStopAll
| Deliver (e : Event).

Definition perform (m : Manager) (a : Action) : Manager :=
  match a with
  | CallStart w projectPath options => (start w projectPath options m).1
  | CallStop processId => (stop processId m).1
  | CallStopAll => (stopAll m).1
  | Deliver e => step m e
  end.

Definition exec (m : Manager) (actions : list Action) : Manager :=
  foldl perform m actions.

End ProcessManager.

(** ** Concrete surroundings used to run the model *)

Module Examples.
Import ProcessManager.

(** A POSIX [path] module on paths that are already normal. *)
Definition posix : PathModule :=
  {| path_isAbsolute := String.prefix "/";
     path_normalize := fun p => p;
     path_resolve := fun cwd p => cwd +:+ "/" +:+ p;
     path_join := fun a b => a +:+ "/" +:+ b;
     process_cwd := "/home/dev" |}.

Definition viteManifest : PackageJson :=
  {| scripts := Some {[ "dev"%string := "vite"%string ]} |}.

Definition appFs : gmap string FsEntry :=
  {[ "/srv/app"%string := Directory;
     "/srv/app/package.json"%string := File (JsonManifest viteManifest) ]}.

Definition noOptions : StartOptions :=
  {| opt_port := None; opt_env := None |}.

Definition supervisorEnv : gmap string EnvValue :=
  {[ "HOME"%string := EnvString "/home/dev";
     "PORT"%string := EnvString "8080" ]}.

(** Every port is free; the next child gets pid 4242. *)
Definition quietWorld : World :=
  {| pathModule := posix; fileSystem := appFs;
     portAvailable := fun _ => true;
     processEnv := supervisorEnv; platform := "linux"; nextPid := 4242 |}.

(** Port 3000 is held by an unrelated listener, every other port is free. *)
Definition busy3000 : World :=
  {| pathModule := posix; fileSystem := appFs;
     portAvailable := fun p => negb (p =? 3000);
     processEnv := supervisorEnv; platform := "linux"; nextPid := 4243 |}.

(** A supervisor with one child that was just spawned: child 0, pid 4242,
    port 3000. *)
Definition spawned : Manager :=
  (start quietWorld "/srv/app" noOptions (newManager defaultConfig)).1.

(** Two children. *)
Definition spawnedTwo : Manager :=
  (start busy3000 "/srv/app"
         {| opt_port := Some 3001; opt_env := None |} spawned).1.

(** The child prints a ready banner. *)
Definition readyActions : list Action :=
  [ CallStart quietWorld "/srv/app" noOptions;
    Deliver (StdoutData 0 "  Compiled successfully!") ].

Definition readyByStdout : Manager :=
  exec (newManager defaultConfig) readyActions.


(** The child prints nothing and the startup timer fires. *)
Definition timedOut : Manager :=
  run spawned [ Tick 60000; StartupTimerFires 0 ].

(** A ready child is stopped, exits on the signal and closes. *)
Definition stopping : Manager := (stop 4242 readyByStdout).1.

Definition stopped : Manager :=
  run stopping [ ChildExits 0 None; ChildCloses 0 ].

(** Two tracked children, the first already exited but not yet closed. *)
Definition midExit : Manager :=
  step spawnedTwo (ChildExits 0 (Some 0)).

End Examples.

(** ** What the specification says, in its own words

    These definitions follow the text of the specification and are only
    compared with the embedding above. *)

Module Spec.

(** Section 4.2, step 3: lock of manager A, then B, then C, then C when a
    recognized run-script exists, then C. *)
Definition packageManagerByPrecedence
    (pnpmLock yarnLock npmLock devScript : bool) : string :=
  if pnpmLock then "pnpm"
  else if yarnLock then "yarn"
  else if npmLock then "npm"
  else if devScript then "npm"
  else "npm".

(** The variables [start] injects for a resolved port. *)
Definition injected (port : Z) : gmap string EnvValue :=
  {[ "PORT"%string := EnvNumber port;
     "BROWSER"%string := EnvString "none";
     "FORCE_COLOR"%string := EnvString "1" ]}.

(** Caller's entries first, then the injected ones, then the inherited
    environment. *)
Definition childSees (inherited : gmap string EnvValue) (port : Z)
    (overrides : gmap string EnvValue) (key : string) : option EnvValue :=
  match overrides !! key with
  | Some v => Some v
  | None =>
      match injected port !! key with
      | Some v => Some v
      | None => inherited !! key
      end
  end.




(** "One-shot timers disarmed on settlement", for stop call [k]. *)
Definition escalationDisarmedOnSettlement (m : Manager) (k : nat) : Prop :=
  ∀ call, stopCalls m !! k = Some call →
    st_resolved call = true → st_timerArmed call = false.

End Spec.

(** ** Invariants of the supervisor *)

Module Invariants.
Import ProcessManager.

(** Everything the supervisor ever does to a [ChildProcess] object. *)
Inductive handler : (Child → Child) → Prop :=
| h_none : handler (fun ch => ch)
| h_timeout : handler onStartupTimeout
| h_stdout data : handler (onStdoutData data)
| h_exit code : handler (onChildExit code)
| h_error err : handler (onChildError err)
| h_poll available now : handler (onPortPoll available now)
| h_close : handler markClosed
| h_kill sig : handler (killChild sig).

(** A child as [start] creates it. *)
Definition fresh (ch : Child) : Prop :=
  c_race ch = armedRace ∧ c_exited ch = false ∧ c_closed ch = false ∧
  c_kills ch = [].

(** While the race is pending everything it installed is in place; once
    it is settled, [cleanup] has run and the outcome is the first call
    of [resolve] or [reject]. *)
Definition raceWf (r : Race) : Prop :=
  match outcome r with
  | None => r = armedRace
  | Some first =>
      timeoutArmed r = false ∧ exitListener r = false ∧
      errorListener r = false ∧ checkReadyListener r = false ∧
      head (settleCalls r) = Some first
  end.


(** The record [stop] creates for a tracked id. *)
Definition newStopCall (m : Manager) (processId : Z) : StopCall :=
  {| st_processId := processId;
     st_child := match processes m !! processId with
                 | Some processInfo => pi_process processInfo
                 | None => O
                 end;
     st_due := clock m + escalationDelay;
     st_timerArmed := true; st_resolved := false |}.

(** Stop call [k] is the one made for [processId] on child [c], and if
    its promise is resolved then the child has exited and closed and the
    id is gone from the Registry. *)
Definition stopSound (k : nat) (processId : Z) (c : nat) (m : Manager) : Prop :=
  ∃ call, stopCalls m !! k = Some call ∧
    st_processId call = processId ∧ st_child call = c ∧
    (st_resolved call = true →
     processes m !! processId = None ∧
     ∃ ch, children m !! c = Some ch ∧
           c_exited ch = true ∧ c_closed ch = true).

End Invariants.

(** ** Shape of the supervisor's state *)

Module Wf.
Import ProcessManager.

(** The callbacks of the readiness race, as they act on a child. *)
Inductive raceHandler : (Child → Child) → Prop :=
| rh_timeout : raceHandler onStartupTimeout
| rh_stdout data : raceHandler (onStdoutData data)
| rh_exit code : raceHandler (onChildExit code)
| rh_error err : raceHandler (onChildError err)
| rh_poll available now : raceHandler (onPortPoll available now).

(** The first signal a child ever got, if any, is the graceful one. *)
Definition killsOrdered (ch : Child) : Prop :=
  match c_kills ch with
  | [] => True
  | first :: _ => first = SIGTERM
  end.

(** A Registry entry sits under the pid of the child it refers to, that
    child holds the same record, and its 'close' has not fired. *)
Definition entryWf (m : Manager) (processId : Z) (info : ProcessInfo) : Prop :=
  pi_id info = processId ∧
  ∃ ch, children m !! pi_process info = Some ch ∧
        c_pid ch = processId ∧ c_info ch = info ∧ c_closed ch = false.

(** A stop call refers to a child with the pid it was called with, and
    that child was sent the graceful signal. *)
Definition stopCallWf (m : Manager) (call : StopCall) : Prop :=
  ∃ ch, children m !! st_child call = Some ch ∧
        c_pid ch = st_processId call ∧ SIGTERM ∈ c_kills ch.

Definition supervisorWf (m : Manager) : Prop :=
  (∀ processId info, processes m !! processId = Some info →
                     entryWf m processId info) ∧
  (∀ k call, stopCalls m !! k = Some call → stopCallWf m call) ∧
  Forall killsOrdered (children m).


(** [needle] occurs in [haystack] as a contiguous piece. *)
Definition occursIn (needle haystack : string) : Prop :=
  ∃ before after, haystack = before +:+ needle +:+ after.

(** Whether a project passes [validateProjectPath] as [start] calls it,
    and whether [start] gets a port. *)
Definition projectValid (w : World) (projectPath : string) : Prop :=
  let checked :=
    PathResolver.resolveAbsolutePath (pathModule w)
      (PathResolver.resolveAbsolutePath (pathModule w) projectPath) in
  is_Some (fileSystem w !! checked) ∧
  is_Some (fileSystem w !! path_join (pathModule w) checked "package.json").

Definition portGiven (options : StartOptions) : Prop :=
  ∃ p, opt_port options = Some p ∧ p ≠ 0.

End Wf.

(** ** The HTTP routes of the supervisor (the Express server) *)

Module Server.
Import ProcessManager.

(** The values a route can pass as a process id. Route parameters
    ([req.params]) are strings; the keys of [this.processes] are the
    numbers [child.pid]. *)
Inductive JsKey :=
| KeyNumber (n : Z)
| KeyString (s : string).

(** [`${processId}`] *)
Definition renderKey (key : JsKey) : string :=
  match key with
  | KeyNumber n => pretty n
  | KeyString s => s
  end.

(** [Map.prototype.get] compares keys by SameValueZero: a string is never
    equal to a number. *)
Definition mapGet (ps : gmap Z ProcessInfo) (key : JsKey) : option ProcessInfo :=
  match key with
  | KeyNumber n => ps !! n
  | KeyString _ => None
  end.

(** [error.message] *)
Definition errorMessage (e : JsError) : string :=
  match e with
  | DirectoryDoesNotExist p => "Directory does not exist: " +:+ p
  | NoPackageJsonFound p => "No package.json found in: " +:+ p
  | NoAvailablePorts a b =>
      "No available ports found in range " +:+ pretty a +:+ "-" +:+ pretty b
  | NoProcessFound processId => "No process found with ID: " +:+ pretty processId
  | ReferenceError identifier => identifier +:+ " is not defined"
  end.

(** [DevServerManager.stop] called with any JavaScript value as the id:
    either the message of the error it throws, or the stop call it
    started. *)
Definition stopValue (key : JsKey) (m : Manager) : Manager * (string + nat) :=
  match mapGet (processes m) key, key with
  | Some _, KeyNumber n =>
      match stop n m with
      | (m', Ok k) => (m', inr k)
      | (m', Err e) => (m', inl (errorMessage e))
      end
  | _, _ => (m, inl ("No process found with ID: " +:+ renderKey key))
  end.

Inductive Response :=
| BadRequest (error : string)
  (* res.status(400).json({ error }) *)
| ErrorResponse (statusCode : Z) (error : string) (withStack : bool).
  (* res.status(statusCode).json({ error, ...(development && { stack }) }) *)

(** A route either has answered or waits for a promise of the
    supervisor. *)
Inductive RouteState :=
| Responded (r : Response)
| AwaitingStart (c : nat)
| AwaitingStop (k : nat).

(** The error-handling middleware, for an [Error] object with the given
    message: such an object has no [statusCode]. [development] is
    [process.env.NODE_ENV === 'development']. *)
Definition errorHandler (development : bool) (message : string) : Response :=
  ErrorResponse 500
    (if String.eqb message "" then "Internal Server Error" else message)
    development.

(** [POST /api/process/start]; [projectPath] is [None] when the body has
    no such field. *)
Definition startRoute (development : bool) (w : World)
    (projectPath : option string) (options : StartOptions) (m : Manager)
    : Manager * RouteState :=
  match projectPath with
  | None => (m, Responded (BadRequest "projectPath is required"))
  | Some p =>
      if String.eqb p ""
      then (m, Responded (BadRequest "projectPath is required"))
      else match start w p options m with
           | (m', Ok c) => (m', AwaitingStart c)
           | (m', Err e) =>
               (m', Responded (errorHandler development (errorMessage e)))
           end
  end.

(** [POST /api/process/stop/:processId] *)
Definition stopRoute (development : bool) (processId : string) (m : Manager)
    : Manager * RouteState :=
  match stopValue (KeyString processId) m with
  | (m', inr k) => (m', AwaitingStop k)
  | (m', inl message) => (m', Responded (errorHandler development message))
  end.

End Server.

(** ** [screenshotService.js]: the bookkeeping of the class
    [ScreenshotService] *)

Module ScreenshotService.

(** The fields of [screenshotData] the bookkeeping reads. *)
Record ScreenshotData := {
  sd_url : string;
  sd_path : string;
  sd_format : string
}.

(** [fs.Stats]: size and modification time in ms. *)
Record FileStat := {
  stat_size : Z;
  stat_mtime : Z
}.

(** [basename(p, ext)] and [extname(p)] of Node's [path] module. *)
Record PathNames := {
  path_basename : string → string → string;
  path_extname : string → string
}.

(** The [fileName] that [captureMultipleScreenshots] passes for the url at
    [index]; [None] is [undefined]. *)
Definition batchFileName (N : PathNames) (fileName : option string)
    (index : nat) : option string :=
  match fileName with
  | Some f =>
      if String.eqb f "" then None
      else
        let ext := path_extname N f in
        Some (path_basename N f ext +:+ "-" +:+ pretty index
              +:+ (if String.eqb ext "" then ".png" else ext))
  | None => None
  end.

Record BatchReport (Data : Type) := {
  br_total : nat;
  br_successful : nat;
  br_failed : nat;
  br_results : list (string * Data);
  br_errors : option (list (string * string))
}.
Arguments br_total {Data} _.
Arguments br_successful {Data} _.
Arguments br_failed {Data} _.
Arguments br_results {Data} _.
Arguments br_errors {Data} _.

Section Batch.
Context {Service Data : Type}.
(** [this.capturePageScreenshot(url, screenshotOptions)], with the state
    of the service and of the browser it works on: a result, or the
    message of the error it throws. *)
Variable capture :
  Service → string → option string → Service * (Data + string).
Variable N : PathNames.

(** The [for] loop over [urls.entries()]. *)
Fixpoint captureEach (fileName : option string) (index : nat)
    (urls : list string) (sv : Service)
    (results : list (string * Data)) (errors : list (string * string))
    : Service * list (string * Data) * list (string * string) :=
  match urls with
  | [] => (sv, results, errors)
  | url :: rest =>
      match capture sv url (batchFileName N fileName index) with
      | (sv', inl data) =>
          captureEach fileName (S index) rest sv'
                      (results ++ [(url, data)]) errors
      | (sv', inr message) =>
          captureEach fileName (S index) rest sv'
                      results (errors ++ [(url, message)])
      end
  end.

Definition captureMultipleScreenshots (urls : list string)
    (fileName : option string) (sv : Service)
    : Service * BatchReport Data :=
  let '(sv', results, errors) := captureEach fileName 0 urls sv [] [] in
  (sv',
   {| br_total := length urls;
      br_successful := length results;
      br_failed := length errors;
      br_results := results;
      br_errors := match errors with
                   | [] => None
                   | _ :: _ => Some errors
                   end |}).

End Batch.

(** The state [cleanupOldScreenshots] works on: [this.screenshots], the
    files on disk, and its two counters. *)
Record Cleanup := {
  cl_screenshots : gmap string ScreenshotData;
  cl_disk : gmap string FileStat;
  cl_deleted : nat;
  cl_errors : nat
}.

(** One round of the loop of [cleanupOldScreenshots]. [fs.statSync]
    throws when the file is missing; [fs.unlinkSync] throws on the paths
    that [locked] marks. Either lands in the [catch] block. *)
Definition cleanupEntry (locked : string → bool) (now maxAgeMs : Z)
    (st : Cleanup) (entry : string * ScreenshotData) : Cleanup :=
  let '(id, screenshot) := entry in
  match cl_disk st !! sd_path screenshot with
  | None =>
      {| cl_screenshots := cl_screenshots st; cl_disk := cl_disk st;
         cl_deleted := cl_deleted st; cl_errors := S (cl_errors st) |}
  | Some stats =>
      if maxAgeMs <? now - stat_mtime stats
      then if locked (sd_path screenshot)
           then {| cl_screenshots := cl_screenshots st;
                   cl_disk := cl_disk st;
                   cl_deleted := cl_deleted st;
                   cl_errors := S (cl_errors st) |}
           else {| cl_screenshots := delete id (cl_screenshots st);
                   cl_disk := delete (sd_path screenshot) (cl_disk st);
                   cl_deleted := S (cl_deleted st);
                   cl_errors := cl_errors st |}
      else st
  end.

Record CleanupReport := {
  cr_total : nat;
  cr_deleted : nat;
  cr_errors : nat
}.

(** [cleanupOldScreenshots(maxAgeDays)] at time [now]. The entries are
    visited in the order of the finite map, a [Map] visits them in
    insertion order. *)
Definition cleanupRun (locked : string → bool) (now maxAgeDays : Z)
    (screenshots : gmap string ScreenshotData) (disk : gmap string FileStat)
    : Cleanup :=
  let maxAgeMs := maxAgeDays * 24 * 60 * 60 * 1000 in
  foldl (cleanupEntry locked now maxAgeMs)
        {| cl_screenshots := screenshots; cl_disk := disk;
           cl_deleted := O; cl_errors := O |}
        (map_to_list screenshots).

Definition cleanupOldScreenshots (locked : string → bool) (now maxAgeDays : Z)
    (screenshots : gmap string ScreenshotData) (disk : gmap string FileStat)
    : Cleanup * CleanupReport :=
  let st := cleanupRun locked now maxAgeDays screenshots disk in
  (st, {| cr_total := size (cl_screenshots st);
          cr_deleted := cl_deleted st;
          cr_errors := cl_errors st |}).

End ScreenshotService.

(** ** More concrete runs *)

Module Scenarios.
Import ProcessManager.

(** A caller names port 3000 although it is taken. *)
Definition port3000 : StartOptions :=
  {| opt_port := Some 3000; opt_env := None |}.

Definition onTakenPort : Manager :=
  (start Examples.busy3000 "/srv/app" port3000 (newManager defaultConfig)).1.

(** A caller overrides PORT and adds a variable of its own. *)
Definition ownEnv : StartOptions :=
  {| opt_port := None;
     opt_env := Some {[ "PORT"%string := EnvString "9999";
                        "API_URL"%string := EnvString "http://api.test" ]} |}.

Definition withOwnEnv : Manager :=
  (start Examples.quietWorld "/srv/app" ownEnv (newManager defaultConfig)).1.

(** The ready banner arrives cut in two. *)
Definition splitBanner : list string :=
  [ "  Compiled succ"; "essfully!" ]%string.

(** The id of a tracked process is stopped twice before it closes. *)
Definition stoppedTwice : Manager :=
  (stop 4242 Examples.stopping).1.

(** Three screenshots on record: one file is eight days old, one is a day
    old, and one has vanished from the disk. *)
Definition shots : gmap string ScreenshotService.ScreenshotData :=
  {[ "screenshot-1"%string :=
       {| ScreenshotService.sd_url := "http://localhost:3000";
          ScreenshotService.sd_path := "/shots/old.png";
          ScreenshotService.sd_format := "png" |};
     "screenshot-2"%string :=
       {| ScreenshotService.sd_url := "http://localhost:3000";
          ScreenshotService.sd_path := "/shots/new.png";
          ScreenshotService.sd_format := "png" |};
     "screenshot-3"%string :=
       {| ScreenshotService.sd_url := "http://localhost:3000";
          ScreenshotService.sd_path := "/shots/gone.png";
          ScreenshotService.sd_format := "png" |} ]}.

Definition shotsDisk : gmap string ScreenshotService.FileStat :=
  {[ "/shots/old.png"%string :=
       {| ScreenshotService.stat_size := 1024;
          ScreenshotService.stat_mtime := 0 |};
     "/shots/new.png"%string :=
       {| ScreenshotService.stat_size := 2048;
          ScreenshotService.stat_mtime := 604800000 |} ]}.

Definition eightDays : Z := 691200000.


End Scenarios.

Import ProcessManager Invariants.

(** * Properties *)

(** ** Package manager detection *)

Lemma detectPackageManager_range P fs projectPath :
  detectPackageManager P fs projectPath ∈ [ "pnpm"; "yarn"; "npm" ]%string.
Proof.
  unfold detectPackageManager.
  repeat case_match; set_solver.
Qed.

(** C8: the detected package manager is the one the fixed precedence of the
    specification picks from the three lock files and the dev script:
    pnpm lock, else yarn lock, else npm lock, else npm whether or not the
    manifest declares a dev script. *)
Theorem detectPackageManager_precedence P fs projectPath :
  let absolutePath := PathResolver.resolveAbsolutePath P projectPath in
  detectPackageManager P fs projectPath =
    Spec.packageManagerByPrecedence
      (access fs (path_join P absolutePath "pnpm-lock.yaml"))
      (access fs (path_join P absolutePath "yarn.lock"))
      (access fs (path_join P absolutePath "package-lock.json"))
      (match readPackageJson fs (path_join P absolutePath "package.json") with
       | Some manifest => hasDevScript manifest
       | None => false
       end).
Proof.
  intros absolutePath.
  unfold detectPackageManager, Spec.packageManagerByPrecedence.
  fold absolutePath.
  destruct (access fs (path_join P absolutePath "pnpm-lock.yaml")); [done|].
  destruct (access fs (path_join P absolutePath "yarn.lock")); [done|].
  destruct (access fs (path_join P absolutePath "package-lock.json")); [done|].
  destruct (readPackageJson fs _) as [manifest|]; [|done].
  by destruct (hasDevScript manifest).
Qed.

(** ** The child environment *)

Lemma composeEnv_None (inherited : gmap string EnvValue) port :
  composeEnv inherited port None =
    <["FORCE_COLOR"%string := EnvString "1"]>
      (<["BROWSER"%string := EnvString "none"]>
         (<["PORT"%string := EnvNumber port]> inherited)).
Proof.
  unfold composeEnv, spread. by rewrite (right_id_L ∅ (∪)).
Qed.

Lemma injected_then_inherited (inherited : gmap string EnvValue) port key :
  (<["FORCE_COLOR"%string := EnvString "1"]>
     (<["BROWSER"%string := EnvString "none"]>
        (<["PORT"%string := EnvNumber port]> inherited))) !! key =
  match Spec.injected port !! key with
  | Some v => Some v
  | None => inherited !! key
  end.
Proof.
  unfold Spec.injected.
  destruct (decide (key = "FORCE_COLOR"%string)) as [->|H1];
    [by simplify_map_eq|].
  destruct (decide (key = "BROWSER"%string)) as [->|H2];
    [by simplify_map_eq|].
  destruct (decide (key = "PORT"%string)) as [->|H3];
    [by simplify_map_eq|].
  by simplify_map_eq.
Qed.

(** Lookup in the composed environment: a key of [options.env] has the
    caller's value, any other key the injected value when it is one of
    the three injected variables, and the inherited value otherwise. *)
Lemma composeEnv_precedence (inherited : gmap string EnvValue) port optionsEnv key :
  composeEnv inherited port optionsEnv !! key =
    Spec.childSees inherited port (default ∅ optionsEnv) key.
Proof.
  unfold Spec.childSees.
  destruct optionsEnv as [overrides|].
  - change (default ∅ (Some overrides)) with overrides.
    unfold composeEnv, spread. rewrite (right_id_L ∅ (∪)).
    rewrite lookup_union.
    destruct (overrides !! key) as [v|] eqn:Hov.
    + match goal with |- Some v ∪ ?o = _ => destruct o; reflexivity end.
    + rewrite (left_id_L None _). apply injected_then_inherited.
  - change (default ∅ None) with (∅ : gmap string EnvValue).
    rewrite composeEnv_None, lookup_empty. apply injected_then_inherited.
Qed.

(** ** Port selection *)

Lemma scanPorts_Some available n : ∀ port p,
  PortChecker.scanPorts available n port = Some p →
  port ≤ p < port + Z.of_nat n ∧ available p = true ∧
  ∀ q, port ≤ q < p → available q = false.
Proof.
  induction n as [|n IH]; intros port p Hscan; [discriminate|].
  cbn [PortChecker.scanPorts] in Hscan.
  unfold PortChecker.isPortAvailable in Hscan.
  destruct (available port) eqn:Hport.
  - injection Hscan as <-. repeat split; [lia..|done|intros q Hq; lia].
  - apply IH in Hscan as (Hrange & Hfree & Hbelow).
    repeat split; [lia..|done|].
    intros q Hq. destruct (decide (q = port)) as [->|Hne]; [done|].
    apply Hbelow; lia.
Qed.

Lemma scanPorts_None available n : ∀ port,
  PortChecker.scanPorts available n port = None →
  ∀ q, port ≤ q < port + Z.of_nat n → available q = false.
Proof.
  induction n as [|n IH]; intros port Hscan q Hq; [lia|].
  cbn [PortChecker.scanPorts] in Hscan.
  unfold PortChecker.isPortAvailable in Hscan.
  destruct (available port) eqn:Hport; [discriminate|].
  destruct (decide (q = port)) as [->|Hne]; [done|].
  apply (IH (port + 1)); [done|lia].
Qed.

(** The scan exported by [portChecker.js] returns the lowest free port of
    the inclusive range and fails only when the whole range is taken. *)
Lemma PortChecker_findAvailablePort_lowest available startPort endPort :
  match PortChecker.findAvailablePort available startPort endPort with
  | Ok p => startPort ≤ p ≤ endPort ∧ available p = true ∧
            ∀ q, startPort ≤ q < p → available q = false
  | Err e => isPortExhaustedError e = true ∧
             ∀ q, startPort ≤ q ≤ endPort → available q = false
  end.
Proof.
  unfold PortChecker.findAvailablePort.
  destruct (PortChecker.scanPorts _ _ _) as [p|] eqn:Hscan.
  - apply scanPorts_Some in Hscan as (Hrange & Hfree & Hbelow).
    repeat split; [lia..|done|done].
  - split; [done|]. intros q Hq.
    apply (scanPorts_None _ _ _ Hscan). lia.
Qed.

(** The method of the class never reaches that scan: the name is not
    bound in [processManager.js]. *)
Lemma findAvailablePort_first_port_taken available startPort :
  available startPort = false →
  findAvailablePort available startPort = Err (ReferenceError "findAvailablePort").
Proof.
  intros Htaken. unfold findAvailablePort, PortChecker.isPortAvailable.
  by rewrite Htaken.
Qed.

Lemma findAvailablePort_first_port_free available startPort :
  available startPort = true →
  findAvailablePort available startPort = Ok startPort.
Proof.
  intros Hfree. unfold findAvailablePort, PortChecker.isPortAvailable.
  by rewrite Hfree.
Qed.

(** C3: with the default port 3000 held by an unrelated listener and 3001
    free, [start] without [options.port] does not resolve port 3001: it
    throws a ReferenceError and spawns nothing, although the scan of
    [portChecker.js] over the same ports finds 3001. *)
Theorem start_default_port_taken :
  start Examples.busy3000 "/srv/app" Examples.noOptions
        (newManager defaultConfig)
    = (newManager defaultConfig, Err (ReferenceError "findAvailablePort"))
  ∧ PortChecker.findAvailablePort (portAvailable Examples.busy3000) 3000 3100
    = Ok 3001.
Proof. split; reflexivity. Qed.

(** ** Validation of the project path *)

Lemma validateProjectPath_errors P fs projectPath e :
  PathResolver.validateProjectPath P fs projectPath = Err e →
  isInvalidProjectError e = true.
Proof.
  unfold PathResolver.validateProjectPath.
  repeat case_match; intros [= <-]; done.
Qed.

(** C9: when the directory [start] validates does not exist, or holds no
    package.json, [start] throws an invalid-project error and the
    supervisor is exactly as before: no child was spawned, the Registry is
    unchanged, and neither the options nor the state of the ports were
    looked at. *)
Theorem start_invalid_project w projectPath options m :
  let checked :=
    PathResolver.resolveAbsolutePath (pathModule w)
      (PathResolver.resolveAbsolutePath (pathModule w) projectPath) in
  fileSystem w !! checked = None ∨
  fileSystem w !! path_join (pathModule w) checked "package.json" = None →
  ∃ e, start w projectPath options m = (m, Err e) ∧
       isInvalidProjectError e = true.
Proof.
  intros checked Hmissing. unfold start.
  destruct (PathResolver.validateProjectPath _ _ _) as [ok|e] eqn:Hvalid.
  - exfalso. revert Hvalid.
    unfold PathResolver.validateProjectPath, PathResolver.existsSync.
    fold checked.
    destruct Hmissing as [Hdir|Hmanifest].
    + rewrite Hdir. rewrite bool_decide_eq_false_2; [done|].
      by intros [? ?].
    + destruct (negb (bool_decide (is_Some (fileSystem w !! checked))));
        [done|].
      rewrite Hmanifest. rewrite bool_decide_eq_false_2; [done|].
      by intros [? ?].
  - exists e. split; [done|]. by eapply validateProjectPath_errors.
Qed.

Lemma start_invalid_project_witness :
  ∃ e, start Examples.quietWorld "/srv/other" Examples.noOptions Examples.spawned
         = (Examples.spawned, Err e) ∧
       isInvalidProjectError e = true.
Proof.
  apply (start_invalid_project Examples.quietWorld "/srv/other"
           Examples.noOptions Examples.spawned).
  left. vm_compute. reflexivity.
Defined.

(** ** How the operations act on the heap of children *)

Lemma step_children m e :
  ∃ f c, handler f ∧ children (step m e) = alter f c (children m).
Proof.
  destruct e as [ms|c|c data|c code|c err|c|c available|k]; simpl;
    try (eexists _, _; split; [|reflexivity]; constructor).
  - exists (fun ch => ch), O. split; [constructor|].
    by rewrite list_alter_id.
  - unfold onChildClose. destruct (children m !! c) as [ch|] eqn:Hc; simpl.
    + eexists _, _. split; [apply h_close|reflexivity].
    + exists (fun ch => ch), O. split; [constructor|].
      by rewrite list_alter_id.
  - unfold onEscalation.
    destruct (stopCalls m !! k) as [call|]; [destruct (st_timerArmed call)|];
      [case_bool_decide|..]; simpl;
      try (exists (fun ch => ch), O; split; [constructor|];
           by rewrite list_alter_id).
    eexists _, _. split; [apply (h_kill SIGKILL)|reflexivity].
Qed.

Lemma stop_children processId m :
  ∃ f c, handler f ∧ children (stop processId m).1 = alter f c (children m).
Proof.
  unfold stop. destruct (processes m !! processId) as [info|]; simpl.
  - eexists _, _. split; [apply (h_kill SIGTERM)|reflexivity].
  - exists (fun ch => ch), O. split; [constructor|].
    by rewrite list_alter_id.
Qed.

Lemma start_children w projectPath options m :
  children (start w projectPath options m).1 = children m ∨
  ∃ ch, fresh ch ∧
        children (start w projectPath options m).1 = children m ++ [ch].
Proof.
  unfold start.
  destruct (PathResolver.validateProjectPath _ _ _); [|by left].
  destruct (resolvePort _ _ _); [|by left].
  right. eexists. split; [|reflexivity]. by repeat split.
Qed.

Section ChildInvariant.
Variable P : Child → Prop.
Hypothesis P_handler : ∀ f, handler f → ∀ ch, P ch → P (f ch).
Hypothesis P_fresh : ∀ ch, fresh ch → P ch.

Lemma alter_invariant f c (cs : list Child) :
  handler f → Forall P cs → Forall P (alter f c cs).
Proof.
  intros Hf Hcs. apply Forall_alter; [done|].
  intros ch _ Hch. by apply P_handler.
Qed.

Lemma step_invariant m e :
  Forall P (children m) → Forall P (children (step m e)).
Proof.
  intros Hm. destruct (step_children m e) as (f & c & Hf & ->).
  by apply alter_invariant.
Qed.

Lemma stop_invariant processId m :
  Forall P (children m) → Forall P (children (stop processId m).1).
Proof.
  intros Hm. destruct (stop_children processId m) as (f & c & Hf & ->).
  by apply alter_invariant.
Qed.

Lemma stopEach_invariant keys : ∀ m,
  Forall P (children m) → Forall P (children (stopEach keys m).1).
Proof.
  induction keys as [|processId keys IH]; intros m Hm; [done|].
  cbn [stopEach].
  pose proof (stop_invariant processId m Hm) as H1.
  destruct (stop processId m) as [m1 promise]. simpl in H1.
  specialize (IH m1 H1).
  by destruct (stopEach keys m1) as [m2 promises].
Qed.

Lemma start_invariant w projectPath options m :
  Forall P (children m) →
  Forall P (children (start w projectPath options m).1).
Proof.
  intros Hm.
  destruct (start_children w projectPath options m) as [->|(ch & Hch & ->)];
    [done|].
  apply Forall_app. split; [done|]. apply Forall_singleton.
  by apply P_fresh.
Qed.

Lemma perform_invariant m a :
  Forall P (children m) → Forall P (children (perform m a)).
Proof.
  destruct a as [w projectPath options|processId| |e]; simpl.
  - apply start_invariant.
  - apply stop_invariant.
  - apply stopEach_invariant.
  - apply step_invariant.
Qed.

Lemma exec_invariant actions : ∀ m,
  Forall P (children m) → Forall P (children (exec m actions)).
Proof.
  induction actions as [|a actions IH]; intros m Hm; [done|].
  apply IH. by apply perform_invariant.
Qed.

Lemma reachable_invariant cfg actions c ch :
  children (exec (newManager cfg) actions) !! c = Some ch → P ch.
Proof.
  intros Hc.
  assert (Forall P (children (exec (newManager cfg) actions))) as Hall.
  { apply exec_invariant. simpl. constructor. }
  rewrite Forall_lookup in Hall. by eapply Hall.
Qed.

End ChildInvariant.

Section ChildRelation.
Variable R : Child → Child → Prop.
Hypothesis R_refl : ∀ ch, R ch ch.
Hypothesis R_trans : ∀ ch1 ch2 ch3, R ch1 ch2 → R ch2 ch3 → R ch1 ch3.
Hypothesis R_handler : ∀ f, handler f → ∀ ch, R ch (f ch).

Lemma alter_related f c' (cs : list Child) c ch :
  handler f → cs !! c = Some ch →
  ∃ ch', alter f c' cs !! c = Some ch' ∧ R ch ch'.
Proof.
  intros Hf Hc. destruct (decide (c' = c)) as [->|Hne].
  - exists (f ch). rewrite list_lookup_alter_eq, Hc. split; [done|].
    by apply R_handler.
  - exists ch. by rewrite list_lookup_alter_ne.
Qed.

Lemma step_related m e c ch :
  children m !! c = Some ch →
  ∃ ch', children (step m e) !! c = Some ch' ∧ R ch ch'.
Proof.
  intros Hc. destruct (step_children m e) as (f & c' & Hf & ->).
  by apply alter_related.
Qed.

Lemma stop_related processId m c ch :
  children m !! c = Some ch →
  ∃ ch', children (stop processId m).1 !! c = Some ch' ∧ R ch ch'.
Proof.
  intros Hc. destruct (stop_children processId m) as (f & c' & Hf & ->).
  by apply alter_related.
Qed.





Lemma run_related events : ∀ m c ch,
  children m !! c = Some ch →
  ∃ ch', children (run m events) !! c = Some ch' ∧ R ch ch'.
Proof.
  induction events as [|e events IH]; intros m c ch Hc.
  - exists ch. by split.
  - destruct (step_related m e c ch Hc) as (ch1 & H1 & HR1).
    destruct (IH _ c ch1 H1) as (ch2 & H2 & HR2).
    exists ch2. split; [done|]. by eapply R_trans.
Qed.

End ChildRelation.

(** ** The readiness race *)

Lemma handler_race f ch :
  handler f →
  c_race (f ch) = c_race ch ∨
  (∃ s, c_race (f ch) = settle s (cleanup (c_race ch))) ∨
  (∃ s, pollerActive (c_race ch) = true ∧
        c_race (f ch) = settle s (cleanup (stopPolling (c_race ch)))).
Proof.
  intros Hf. destruct Hf; simpl; try by left.
  - unfold onStartupTimeout. case_match; [|by left]. right; left. by eexists.
  - unfold onStdoutData. repeat case_match; try by left.
    right; left. by eexists.
  - unfold onChildExit. case_match; [|by left]. right; left. by eexists.
  - unfold onChildError. case_match; [|by left]. right; left. by eexists.
  - unfold onPortPoll. repeat case_match; try by left.
    + right; right. by eexists.
    + right; right. by eexists.
Qed.

Lemma settle_cleanup_wf s r : raceWf r → raceWf (settle s (cleanup r)).
Proof.
  unfold raceWf. destruct (outcome r) as [first|] eqn:Ho; simpl; rewrite Ho.
  - intros (_ & _ & _ & _ & Hhead). repeat split.
    by destruct (settleCalls r).
  - intros ->. by repeat split.
Qed.

Lemma settle_cleanup_stopPolling_wf s r :
  raceWf r → raceWf (settle s (cleanup (stopPolling r))).
Proof.
  unfold raceWf. destruct (outcome r) as [first|] eqn:Ho; simpl; rewrite Ho.
  - intros (_ & _ & _ & _ & Hhead). repeat split.
    by destruct (settleCalls r).
  - intros ->. by repeat split.
Qed.

Lemma handler_raceWf f :
  handler f → ∀ ch, raceWf (c_race ch) → raceWf (c_race (f ch)).
Proof.
  intros Hf ch Hwf.
  destruct (handler_race f ch Hf) as [->|[(s & ->)|(s & _ & ->)]].
  - done.
  - by apply settle_cleanup_wf.
  - by apply settle_cleanup_stopPolling_wf.
Qed.

Lemma fresh_raceWf ch : fresh ch → raceWf (c_race ch).
Proof. intros (-> & _). reflexivity. Qed.

Lemma reachable_raceWf cfg actions c ch :
  children (exec (newManager cfg) actions) !! c = Some ch →
  raceWf (c_race ch).
Proof.
  apply (reachable_invariant (fun ch => raceWf (c_race ch))).
  - apply handler_raceWf.
  - apply fresh_raceWf.
Qed.








(** ** A failed start *)


Lemma foldl_stopCloseListener_None c calls : ∀ (ps : gmap Z ProcessInfo) processId,
  ps !! processId = None →
  foldl (stopCloseListener c) ps calls !! processId = None.
Proof.
  induction calls as [|call calls IH]; intros ps processId Hps; [done|].
  simpl. apply IH. unfold stopCloseListener.
  case_bool_decide; [|done].
  rewrite lookup_delete_None. by right.
Qed.

Lemma foldl_stopCloseListener_Some c calls : ∀ (ps : gmap Z ProcessInfo) processId info,
  foldl (stopCloseListener c) ps calls !! processId = Some info →
  ps !! processId = Some info.
Proof.
  induction calls as [|call calls IH]; intros ps processId info Hps; [done|].
  simpl in Hps. apply IH in Hps. unfold stopCloseListener in Hps.
  case_bool_decide; [|done].
  by apply lookup_delete_Some in Hps as [_ ?].
Qed.



(** Only a 'close' event changes the Registry. *)
Lemma step_processes_unchanged m e :
  (∀ c, e ≠ ChildCloses c) → processes (step m e) = processes m.
Proof.
  intros Hnot.
  destruct e as [ms|c|c data|c code|c err|c|c available|k]; simpl; try done.
  - by destruct (Hnot c).
  - unfold onEscalation.
    destruct (stopCalls m !! k) as [call|]; [|done].
    destruct (st_timerArmed call); [|done].
    by case_bool_decide.
Qed.



(** ** Stopping *)

(** What one event does to the record of a stop call. *)
Lemma step_stopCalls m e k call :
  stopCalls m !! k = Some call →
  ∃ call', stopCalls (step m e) !! k = Some call' ∧
    st_processId call' = st_processId call ∧
    st_child call' = st_child call ∧
    st_due call' = st_due call ∧
    (e ≠ EscalationTimerFires k → st_timerArmed call' = st_timerArmed call) ∧
    (st_resolved call = true → st_resolved call' = true) ∧
    (st_resolved call' = true →
     st_resolved call = true ∨ e = ChildCloses (st_child call)).
Proof.
  intros Hk.
  destruct e as [ms|c|c data|c code|c err|c|c available|k']; simpl;
    try (exists call; repeat split; by auto).
  - unfold onChildClose.
    destruct (children m !! c) as [ch|]; simpl;
      [|exists call; repeat split; by auto].
    rewrite list_lookup_fmap, Hk. simpl.
    unfold resolveStop. case_bool_decide as Hchild.
    + eexists. split; [reflexivity|]. simpl. repeat split; auto.
    + exists call. repeat split; auto.
  - unfold onEscalation.
    destruct (stopCalls m !! k') as [call0|] eqn:Hk';
      [|exists call; repeat split; by auto].
    destruct (st_timerArmed call0) eqn:Harmed;
      [|exists call; repeat split; by auto].
    assert (∃ call', alter disarm k' (stopCalls m) !! k = Some call' ∧
              st_processId call' = st_processId call ∧
              st_child call' = st_child call ∧
              st_due call' = st_due call ∧
              (EscalationTimerFires k' ≠ EscalationTimerFires k →
               st_timerArmed call' = st_timerArmed call) ∧
              st_resolved call' = st_resolved call)
      as (call' & Hlook & ? & ? & ? & ? & Hres).
    { rewrite list_lookup_alter. case_decide as Heq.
      - subst k'. rewrite Hk. exists (disarm call). by repeat split.
      - exists call. by repeat split. }
    exists call'. rewrite Hres.
    case_bool_decide; simpl; repeat split; auto.
Qed.

Lemma stop_tracked processId m info :
  processes m !! processId = Some info →
  stop processId m =
    (updateChild (pi_process info) (killChild SIGTERM)
       (withStopCalls (stopCalls m ++ [newStopCall m processId]) m),
     Ok (length (stopCalls m))).
Proof.
  intros Hinfo. unfold stop, newStopCall. by rewrite Hinfo.
Qed.

Lemma run_snoc m events e : run m (events ++ [e]) = step (run m events) e.
Proof. unfold run. by rewrite foldl_app. Qed.

(** An armed escalation timer stays armed until it fires. *)
Lemma escalation_stays_armed events : ∀ m k call,
  stopCalls m !! k = Some call →
  st_timerArmed call = true →
  EscalationTimerFires k ∉ events →
  ∃ call', stopCalls (run m events) !! k = Some call' ∧
           st_processId call' = st_processId call ∧
           st_child call' = st_child call ∧
           st_timerArmed call' = true.
Proof.
  induction events as [|e events IH]; intros m k call Hk Harmed Hnot.
  - exists call. by repeat split.
  - destruct (step_stopCalls m e k call Hk)
      as (call1 & Hk1 & Hid1 & Hchild1 & _ & Harmed1 & _).
    destruct (IH (step m e) k call1 Hk1) as (call' & Hk' & Hid' & Hchild' & ?).
    + rewrite Harmed1; [done|]. intros ->. apply Hnot. by left.
    + intros Hin. apply Hnot. by right.
    + exists call'. repeat split; [done|congruence..|done].
Qed.

(** C5: [stop] on a tracked id first sends the graceful signal and arms a
    timer due 5000ms later. Nothing disarms that timer: whatever events
    follow, also the exit and close that settle the stop, it stays armed
    until it fires. When it fires it is disarmed, and it sends the forceful
    signal if and only if the id is in the Registry at that moment. *)
Theorem stop_escalation_guarded processId m info events :
  processes m !! processId = Some info →
  EscalationTimerFires (length (stopCalls m)) ∉ events →
  let k := length (stopCalls m) in
  let c := pi_process info in
  let m1 := (stop processId m).1 in
  let m2 := run m1 events in
  let m3 := step m2 (EscalationTimerFires k) in
  (stop processId m).2 = Ok k ∧
  children m1 = alter (killChild SIGTERM) c (children m) ∧
  (∃ call, stopCalls m1 !! k = Some call ∧ st_timerArmed call = true ∧
           st_due call = clock m + 5000) ∧
  (∃ call, stopCalls m2 !! k = Some call ∧ st_timerArmed call = true) ∧
  (∃ call, stopCalls m3 !! k = Some call ∧ st_timerArmed call = false) ∧
  children m3 =
    if bool_decide (is_Some (processes m2 !! processId))
    then alter (killChild SIGKILL) c (children m2)
    else children m2.
Proof.
  intros Hinfo Hnot k c m1 m2 m3.
  assert (stop processId m = (m1, Ok k)) as Hstop.
  { unfold m1. by rewrite (stop_tracked _ _ _ Hinfo). }
  assert (stopCalls m1 !! k = Some (newStopCall m processId)) as Hk1.
  { unfold m1. rewrite (stop_tracked _ _ _ Hinfo). simpl.
    by rewrite list_lookup_middle. }
  destruct (escalation_stays_armed events m1 k _ Hk1 eq_refl Hnot)
    as (call2 & Hk2 & Hid2 & Hchild2 & Harmed2).
  fold m2 in Hk2.
  split; [by rewrite Hstop|].
  split; [unfold m1; by rewrite (stop_tracked _ _ _ Hinfo)|].
  split; [by eexists|].
  split; [by eexists|].
  unfold m3. simpl. unfold onEscalation. rewrite Hk2, Harmed2.
  assert (st_processId call2 = processId) as -> by done.
  assert (st_child call2 = c) as ->.
  { rewrite Hchild2. unfold newStopCall. simpl. by rewrite Hinfo. }
  split.
  - exists (disarm call2).
    case_bool_decide; simpl; by rewrite list_lookup_alter_eq, Hk2.
  - by case_bool_decide.
Qed.

Lemma stop_escalation_guarded_witness :
  (∃ call, stopCalls Examples.stopped !! O = Some call ∧
           st_timerArmed call = true) ∧
  children (step Examples.stopped (EscalationTimerFires 0))
    = children Examples.stopped.
Proof.
  assert (processes Examples.readyByStdout !! 4242 = Some
            {| pi_id := 4242; pi_port := 3000; pi_projectPath := "/srv/app";
               pi_startTime := 0; pi_process := 0 |}) as Hinfo
    by (vm_compute; reflexivity).
  assert (EscalationTimerFires (length (stopCalls Examples.readyByStdout))
            ∉ [ChildExits 0 None; ChildCloses 0]) as Hnot.
  { vm_compute. intros Hin. repeat (inversion Hin as [|? ? ? Hin']; subst;
      clear Hin; rename Hin' into Hin). }
  destruct (stop_escalation_guarded 4242 Examples.readyByStdout _
              [ChildExits 0 None; ChildCloses 0] Hinfo Hnot)
    as (_ & _ & _ & Harmed & _ & Hfire).
  split; [exact Harmed|].
  etransitivity; [exact Hfire|]. vm_compute. reflexivity.
Defined.

(** C5, as stated, fails: after the child has exited and closed and the
    stop has resolved, the escalation timer is still armed. *)
Lemma escalation_timer_left_armed :
  ¬ Spec.escalationDisarmedOnSettlement Examples.stopped 0.
Proof.
  intros Hclaim.
  destruct (stopCalls Examples.stopped !! O) as [call|] eqn:Hk;
    [|vm_compute in Hk; discriminate].
  specialize (Hclaim call Hk).
  vm_compute in Hk. injection Hk as <-.
  specialize (Hclaim eq_refl). discriminate.
Qed.

(** Events only ever remove entries from the Registry. *)
Lemma step_processes_Some m e processId info :
  processes (step m e) !! processId = Some info →
  processes m !! processId = Some info.
Proof.
  destruct e as [ms|c|c data|c code|c err|c|c available|k]; simpl; try done.
  - unfold onChildClose. destruct (children m !! c) as [ch|]; simpl; [|done].
    intros Hlook%foldl_stopCloseListener_Some.
    by apply lookup_delete_Some in Hlook as [_ ?].
  - unfold onEscalation.
    destruct (stopCalls m !! k) as [call|]; [|done].
    destruct (st_timerArmed call); [|done].
    by case_bool_decide.
Qed.

Lemma step_processes_None m e processId :
  processes m !! processId = None →
  processes (step m e) !! processId = None.
Proof.
  intros Hnone.
  destruct (processes (step m e) !! processId) as [info|] eqn:Hlook; [|done].
  apply step_processes_Some in Hlook. congruence.
Qed.

Lemma run_processes_Some events : ∀ m processId info,
  processes (run m events) !! processId = Some info →
  processes m !! processId = Some info.
Proof.
  induction events as [|e events IH]; intros m processId info Hlook; [done|].
  by eapply step_processes_Some, IH.
Qed.

(** The 'close' listener of a stop call removes the id it was called
    with. *)
Lemma foldl_stopCloseListener_deletes c calls : ∀ (ps : gmap Z ProcessInfo) call,
  call ∈ calls → st_child call = c →
  foldl (stopCloseListener c) ps calls !! st_processId call = None.
Proof.
  induction calls as [|call0 calls IH]; intros ps call Hin Hchild.
  - by apply elem_of_nil in Hin.
  - apply elem_of_cons in Hin as [<-|Hin]; simpl.
    + apply foldl_stopCloseListener_None. unfold stopCloseListener.
      rewrite bool_decide_eq_true_2; [|done]. apply lookup_delete_eq.
    + by apply IH.
Qed.

Lemma handler_exited_closed f :
  handler f → ∀ ch,
  (c_exited ch = true → c_exited (f ch) = true) ∧
  (c_closed ch = true → c_closed (f ch) = true).
Proof.
  intros Hf ch. destruct Hf; simpl; try done.
  - unfold onStartupTimeout. by case_match.
  - unfold onStdoutData. by repeat case_match.
  - unfold onChildExit. by case_match.
  - unfold onChildError. by case_match.
  - unfold onPortPoll. by repeat case_match.
Qed.

Lemma step_exited_closed m e c ch :
  children m !! c = Some ch →
  c_exited ch = true → c_closed ch = true →
  ∃ ch', children (step m e) !! c = Some ch' ∧
         c_exited ch' = true ∧ c_closed ch' = true.
Proof.
  intros Hc Hexited Hclosed.
  destruct (step_children m e) as (f & c0 & Hf & ->).
  destruct (handler_exited_closed f Hf ch) as [Hx Hcl].
  rewrite list_lookup_alter. case_decide.
  - subst c0. rewrite Hc. exists (f ch). auto.
  - exists ch. auto.
Qed.

(** One deliverable event keeps a stop call sound: its promise can only
    be resolved by the 'close' of its child, which comes after the exit
    and removes the id. *)
Lemma step_stopSound m e k processId c :
  enabled m e = true →
  stopSound k processId c m → stopSound k processId c (step m e).
Proof.
  intros Henabled (call & Hk & Hid & Hchild & Hsound).
  destruct (step_stopCalls m e k call Hk)
    as (call' & Hk' & Hid' & Hchild' & _ & _ & _ & Hres).
  exists call'. split; [done|]. split; [congruence|]. split; [congruence|].
  intros Hresolved. destruct (Hres Hresolved) as [Hbefore| ->].
  - destruct (Hsound Hbefore) as (Hgone & ch & Hc & Hexited & Hclosed).
    split; [by apply step_processes_None|].
    by eapply step_exited_closed.
  - rewrite Hchild in *. simpl in Henabled |- *.
    unfold onChildClose.
    destruct (children m !! c) as [ch|] eqn:Hc; [|done].
    apply andb_true_iff in Henabled as [Hexited _]. simpl.
    split.
    + rewrite <- Hid. apply foldl_stopCloseListener_deletes; [|done].
      rewrite list_elem_of_lookup. by exists k.
    + exists (markClosed ch). by rewrite list_lookup_alter_eq, Hc.
Qed.

Lemma run_stopSound events : ∀ m k processId c,
  deliverable m events = true →
  stopSound k processId c m → stopSound k processId c (run m events).
Proof.
  induction events as [|e events IH]; intros m k processId c Hdel Hsound;
    [done|].
  simpl in Hdel. apply andb_true_iff in Hdel as [Henabled Hdel].
  apply IH; [done|]. by apply step_stopSound.
Qed.

Lemma stopSound_resolved k processId c m :
  stopSound k processId c m → stopResolved m k = true →
  processes m !! processId = None ∧
  ∃ ch, children m !! c = Some ch ∧ c_exited ch = true ∧ c_closed ch = true.
Proof.
  intros (call & Hk & _ & _ & Hsound) Hresolved.
  unfold stopResolved in Hresolved. rewrite Hk in Hresolved. auto.
Qed.

Lemma stop_stopSound processId m info :
  processes m !! processId = Some info →
  stopSound (length (stopCalls m)) processId (pi_process info)
            (stop processId m).1 ∧
  stopResolved (stop processId m).1 (length (stopCalls m)) = false.
Proof.
  intros Hinfo. rewrite (stop_tracked _ _ _ Hinfo).
  unfold stopSound, stopResolved. simpl. rewrite list_lookup_middle; [|done].
  split; [|done].
  exists (newStopCall m processId). unfold newStopCall. simpl.
  rewrite Hinfo. by repeat split.
Qed.

Lemma run_stopCalls events : ∀ m k call,
  stopCalls m !! k = Some call →
  ∃ call', stopCalls (run m events) !! k = Some call' ∧
           st_processId call' = st_processId call ∧
           st_child call' = st_child call.
Proof.
  induction events as [|e events IH]; intros m k call Hk.
  - by exists call.
  - destruct (step_stopCalls m e k call Hk) as (call1 & Hk1 & Hid1 & Hc1 & _).
    destruct (IH (step m e) k call1 Hk1) as (call' & Hk' & Hid' & Hc').
    exists call'. repeat split; [done|congruence..].
Qed.

Lemma run_child_persists events m c ch :
  children m !! c = Some ch → is_Some (children (run m events) !! c).
Proof.
  intros Hc.
  destruct (run_related (fun _ _ => True) (fun _ => I)
              (fun _ _ _ _ _ => I) (fun _ _ _ => I) events m c ch Hc)
    as (ch' & Hc' & _).
  by exists ch'.
Qed.

(** The 'close' of its child resolves a stop call. *)
Lemma close_resolves_stop m k call ch :
  stopCalls m !! k = Some call →
  children m !! st_child call = Some ch →
  stopResolved (step m (ChildCloses (st_child call))) k = true.
Proof.
  intros Hk Hc. simpl. unfold onChildClose, stopResolved. rewrite Hc. simpl.
  rewrite list_lookup_fmap, Hk. simpl. unfold resolveStop.
  by rewrite bool_decide_eq_true_2.
Qed.

(** C4: [stop] on a tracked id returns a pending promise; whenever the
    runtime has delivered events after which that promise is resolved, the
    child's exit (and close) event has fired and [getProcessInfo] on the id
    fails with the not-found error; and the promise does get resolved, by
    the 'close' event of the child. [stop] on an id that is not tracked
    fails with the not-found error and changes nothing. *)
Theorem stop_resolves_after_exit m processId :
  (∀ info events,
     processes m !! processId = Some info →
     let k := length (stopCalls m) in
     let m1 := (stop processId m).1 in
     (stop processId m).2 = Ok k ∧
     stopResolved m1 k = false ∧
     (deliverable m1 events = true →
      stopResolved (run m1 events) k = true →
      (∃ ch, children (run m1 events) !! pi_process info = Some ch ∧
             c_exited ch = true ∧ c_closed ch = true) ∧
      getProcessInfo processId (run m1 events)
        = Err (NoProcessFound processId)) ∧
     (is_Some (children m !! pi_process info) →
      stopResolved (step (run m1 events) (ChildCloses (pi_process info))) k
        = true)) ∧
  (processes m !! processId = None →
   stop processId m = (m, Err (NoProcessFound processId)) ∧
   isNotFoundError (NoProcessFound processId) = true).
Proof.
  split.
  - intros info events Hinfo k m1.
    destruct (stop_stopSound _ _ _ Hinfo) as [Hsound Hpending].
    split; [by rewrite (stop_tracked _ _ _ Hinfo)|].
    split; [done|]. split.
    + intros Hdel Hresolved.
      destruct (stopSound_resolved _ _ _ _
                  (run_stopSound events _ _ _ _ Hdel Hsound) Hresolved)
        as [Hgone Hchild].
      split; [done|]. unfold getProcessInfo. fold m1. by rewrite Hgone.
    + intros [ch Hc].
      destruct Hsound as (call & Hk & _ & Hchild & _). fold m1 in Hk.
      destruct (run_stopCalls events m1 k call Hk) as (call' & Hk' & _ & Hc').
      assert (is_Some (children (run m1 events) !! pi_process info))
        as [ch' Hch'].
      { destruct (stop_related (fun _ _ => True) (fun _ => I) (fun _ _ _ => I)
                    processId m _ ch Hc) as (ch1 & Hc1 & _).
        by eapply run_child_persists. }
      rewrite <- Hchild, <- Hc'. eapply close_resolves_stop; [done|].
      by rewrite Hc', Hchild.
  - intros Hnone. unfold stop. by rewrite Hnone.
Qed.

Lemma stop_resolves_after_exit_witness :
  getProcessInfo 4242 Examples.stopped = Err (NoProcessFound 4242) ∧
  stop 77 Examples.spawned = (Examples.spawned, Err (NoProcessFound 77)).
Proof.
  split.
  - destruct (stop_resolves_after_exit Examples.readyByStdout 4242)
      as [Htracked _].
    destruct (processes Examples.readyByStdout !! 4242) as [info|] eqn:Hinfo;
      [|vm_compute in Hinfo; discriminate].
    destruct (Htracked info [ChildExits 0 None; ChildCloses 0] eq_refl)
      as (_ & _ & Hafter & _).
    apply Hafter; vm_compute; reflexivity.
  - destruct (stop_resolves_after_exit Examples.spawned 77) as [_ Hunknown].
    apply Hunknown. vm_compute. reflexivity.
Defined.

(** ** Stopping everything *)

(** The loop of [stopAll] over tracked ids: one stop call per id, in
    order, none of them failing, the Registry untouched. *)
Lemma stopEach_tracked keys : ∀ m,
  (∀ processId, processId ∈ keys → is_Some (processes m !! processId)) →
  processes (stopEach keys m).1 = processes m ∧
  clock (stopEach keys m).1 = clock m ∧
  stopCalls (stopEach keys m).1 = stopCalls m ++ (newStopCall m <$> keys) ∧
  (stopEach keys m).2 = Ok <$> seq (length (stopCalls m)) (length keys).
Proof.
  induction keys as [|processId keys IH]; intros m Htracked.
  - simpl. by rewrite app_nil_r.
  - destruct (Htracked processId) as [info Hinfo]; [by left|].
    cbn [stopEach]. rewrite (stop_tracked _ _ _ Hinfo).
    set (m1 := updateChild _ _ _).
    assert (processes m1 = processes m) as Hps by done.
    assert (clock m1 = clock m) as Hclock by done.
    destruct (IH m1) as (Hps2 & Hclock2 & Hcalls2 & Hpromises2).
    { intros id Hid. rewrite Hps. apply Htracked. by right. }
    destruct (stopEach keys m1) as [m2 promises]. simpl in *.
    split; [congruence|]. split; [congruence|]. split.
    { rewrite Hcalls2, <- app_assoc. reflexivity. }
    rewrite Hpromises2, length_app. simpl.
    by rewrite Nat.add_1_r.
Qed.

Lemma promiseAll_resolved m promises :
  promiseAll m promises = Some (Ok tt) →
  ∀ k, Ok k ∈ promises → stopResolved m k = true.
Proof.
  induction promises as [|[k0|e0] promises IH]; intros Hall k Hin.
  - by apply elem_of_nil in Hin.
  - simpl in Hall.
    destruct (promiseAll m promises) as [[[]|e]|] eqn:Hrest; try done.
    destruct (stopResolved m k0) eqn:Hk0; [|done].
    apply elem_of_cons in Hin as [[= ->]|Hin]; [done|]. by apply IH.
  - done.
Qed.

Lemma promiseAll_never_rejects m ks e :
  promiseAll m (Ok <$> ks) ≠ Some (Err e).
Proof.
  revert e. induction ks as [|k ks IH]; intros e; [done|].
  rewrite fmap_cons. cbn [promiseAll].
  destruct (promiseAll m (Ok <$> ks)) as [[[]|e']|] eqn:Hrest.
  - by destruct (stopResolved m k).
  - by destruct (IH e').
  - done.
Qed.

Lemma promiseAll_all_resolved m ks :
  (∀ k, k ∈ ks → stopResolved m k = true) →
  promiseAll m (Ok <$> ks) = Some (Ok tt).
Proof.
  induction ks as [|k ks IH]; intros Hall; [done|].
  rewrite fmap_cons. cbn [promiseAll].
  rewrite IH by (intros k' Hk'; apply Hall; by right).
  rewrite Hall; [done|by left].
Qed.

(** C6: [stopAll] makes one [stop] call for every id tracked when it is
    called, all of them before any further event is handled, and none of
    these calls fails, whether or not a child has already exited. The
    combined promise is never rejected and is resolved exactly when all
    these stop calls are; whenever the runtime has delivered events after
    which it is resolved, every child that was tracked has exited and
    closed and the Registry is empty. *)
Theorem stopAll_waits_for_every_exit m events :
  let m1 := (stopAll m).1 in
  let promises := (stopAll m).2 in
  (length promises = size (processes m) ∧
   ∀ processId info, processes m !! processId = Some info →
     ∃ k call, Ok k ∈ promises ∧ stopCalls m1 !! k = Some call ∧
               st_processId call = processId ∧
               st_child call = pi_process info) ∧
  (∀ e, promiseAll (run m1 events) promises ≠ Some (Err e)) ∧
  (promiseAll (run m1 events) promises = Some (Ok tt) ↔
   ∀ k, Ok k ∈ promises → stopResolved (run m1 events) k = true) ∧
  (deliverable m1 events = true →
   promiseAll (run m1 events) promises = Some (Ok tt) →
   processes (run m1 events) = ∅ ∧
   ∀ processId info, processes m !! processId = Some info →
     ∃ ch, children (run m1 events) !! pi_process info = Some ch ∧
           c_exited ch = true ∧ c_closed ch = true).
Proof.
  intros m1 promises. unfold stopAll in m1, promises.
  set (keys := (map_to_list (processes m)).*1) in *.
  assert (∀ processId, processId ∈ keys ↔ is_Some (processes m !! processId))
    as Hkeys.
  { intros processId. unfold keys. rewrite list_elem_of_fmap. split.
    - intros ([id info] & -> & Hin). apply elem_of_map_to_list in Hin.
      by exists info.
    - intros [info Hinfo]. exists (processId, info). split; [done|].
      by apply elem_of_map_to_list. }
  destruct (stopEach_tracked keys m) as (Hps & Hclock & Hcalls & Hpromises).
  { intros processId. apply Hkeys. }
  change (processes m1 = processes m) in Hps.
  change (stopCalls m1 = stopCalls m ++ (newStopCall m <$> keys)) in Hcalls.
  change (promises = Ok <$> seq (length (stopCalls m)) (length keys))
    in Hpromises.
  clearbody m1 promises.
  assert (∀ processId info, processes m !! processId = Some info →
            ∃ k, Ok k ∈ promises ∧
                 stopCalls m1 !! k = Some (newStopCall m processId))
    as Hbatch.
  { intros processId info Hinfo.
    assert (processId ∈ keys) as Hin by (apply Hkeys; by exists info).
    apply list_elem_of_lookup in Hin as [i Hi].
    exists (length (stopCalls m) + i)%nat. split.
    - rewrite Hpromises. apply list_elem_of_fmap_2.
      apply list_elem_of_lookup. exists i.
      apply lookup_seq. split; [done|]. by eapply lookup_lt_Some.
    - rewrite Hcalls, lookup_app_r by lia.
      replace (length (stopCalls m) + i - length (stopCalls m))%nat
        with i by lia.
      by rewrite list_lookup_fmap, Hi. }
  assert (∀ processId info, processes m !! processId = Some info →
            ∃ k, Ok k ∈ promises ∧
                 stopSound k processId (pi_process info) m1)
    as Hsound.
  { intros processId info Hinfo.
    destruct (Hbatch processId info Hinfo) as (k & Hin & Hk).
    exists k. split; [done|].
    exists (newStopCall m processId). split; [done|].
    unfold newStopCall. simpl. rewrite Hinfo. by repeat split. }
  split; [split|split; [|split]].
  - rewrite Hpromises, length_fmap, length_seq.
    unfold keys. by rewrite length_fmap, length_map_to_list.
  - intros processId info Hinfo.
    destruct (Hbatch processId info Hinfo) as (k & Hin & Hk).
    exists k, (newStopCall m processId). split; [done|]. split; [done|].
    unfold newStopCall. simpl. by rewrite Hinfo.
  - intros e. rewrite Hpromises. apply promiseAll_never_rejects.
  - split; [apply promiseAll_resolved|].
    intros Hall. rewrite Hpromises. apply promiseAll_all_resolved.
    intros k Hk. apply Hall. rewrite Hpromises.
    by apply list_elem_of_fmap_2.
  - intros Hdel Hall.
    assert (∀ processId info, processes m !! processId = Some info →
              processes (run m1 events) !! processId = None ∧
              ∃ ch, children (run m1 events) !! pi_process info = Some ch ∧
                    c_exited ch = true ∧ c_closed ch = true) as Hdone.
    { intros processId info Hinfo.
      destruct (Hsound processId info Hinfo) as (k & Hin & Hk).
      eapply stopSound_resolved.
      - by apply run_stopSound.
      - by eapply promiseAll_resolved. }
    split.
    + apply map_empty. intros processId.
      destruct (processes (run m1 events) !! processId) as [info|] eqn:Hlook;
        [|done].
      pose proof (run_processes_Some _ _ _ _ Hlook) as Hbefore.
      rewrite Hps in Hbefore.
      destruct (Hdone processId info Hbefore) as [Hgone _]. congruence.
    + intros processId info Hinfo. by apply (Hdone processId info).
Qed.

Lemma stopAll_waits_for_every_exit_witness :
  processes (run (stopAll Examples.midExit).1
                 [ ChildCloses 0; ChildExits 1 None; ChildCloses 1 ]) = ∅.
Proof.
  destruct (stopAll_waits_for_every_exit Examples.midExit
              [ ChildCloses 0; ChildExits 1 None; ChildCloses 1 ])
    as (_ & _ & _ & Hafter).
  apply Hafter; vm_compute; reflexivity.
Defined.


(** * Further properties of the code *)

Import Wf.

(** ** [start]: when it spawns and what it leaves behind *)

Lemma validateProjectPath_Ok P (fs : gmap string FsEntry) projectPath :
  (∃ ok, PathResolver.validateProjectPath P fs projectPath = Ok ok) ↔
  is_Some (fs !! PathResolver.resolveAbsolutePath P projectPath) ∧
  is_Some (fs !! path_join P (PathResolver.resolveAbsolutePath P projectPath)
                            "package.json").
Proof.
  unfold PathResolver.validateProjectPath, PathResolver.existsSync.
  split.
  - intros [ok Hok].
    case_bool_decide as Hdir; simpl in Hok; [|done].
    case_bool_decide as Hmanifest; simpl in Hok; done.
  - intros [Hdir Hmanifest].
    rewrite !bool_decide_eq_true_2 by done. simpl. by eexists.
Qed.

Lemma resolvePort_Ok cfg available options port :
  resolvePort cfg available options = Ok port →
  (portGiven options ∧ opt_port options = Some port) ∨
  (¬ portGiven options ∧ available (defaultPort cfg) = true ∧
   port = defaultPort cfg).
Proof.
  unfold resolvePort, portGiven.
  assert (∀ r, findAvailablePort available (defaultPort cfg) = Ok r →
               available (defaultPort cfg) = true ∧ r = defaultPort cfg)
    as Hscan.
  { intros r. destruct (available (defaultPort cfg)) eqn:Hfree.
    - rewrite findAvailablePort_first_port_free by done. by intros [= <-].
    - by rewrite findAvailablePort_first_port_taken. }
  destruct (opt_port options) as [p|] eqn:Hp.
  - destruct (p =? 0) eqn:Hzero.
    + intros [? ->]%Hscan. right. split; [|done].
      intros (q & [= <-] & Hq). lia.
    + intros [= <-]. left. split; [|done]. exists p. split; [done|lia].
  - intros [? ->]%Hscan. right. split; [|done]. by intros (q & ? & _).
Qed.

Lemma resolvePort_Err cfg available options e :
  resolvePort cfg available options = Err e →
  ¬ portGiven options ∧ available (defaultPort cfg) = false.
Proof.
  unfold resolvePort, portGiven.
  assert (findAvailablePort available (defaultPort cfg) = Err e →
          available (defaultPort cfg) = false) as Hscan.
  { destruct (available (defaultPort cfg)) eqn:Hfree; [|done].
    by rewrite findAvailablePort_first_port_free. }
  destruct (opt_port options) as [p|] eqn:Hp.
  - destruct (p =? 0) eqn:Hzero; [|done].
    intros ?%Hscan. split; [|done]. intros (q & [= <-] & Hq). lia.
  - intros ?%Hscan. split; [|done]. by intros (q & ? & _).
Qed.

(** Everything a successful [start] did, up to its [await]. *)
Lemma start_Ok_inv w projectPath options m m' c :
  start w projectPath options m = (m', Ok c) →
  ∃ port ch,
    resolvePort (config m) (portAvailable w) options = Ok port ∧
    projectValid w projectPath ∧
    c = length (children m) ∧
    c_info ch =
      {| pi_id := nextPid w; pi_port := port;
         pi_projectPath :=
           PathResolver.resolveAbsolutePath (pathModule w) projectPath;
         pi_startTime := clock m; pi_process := c |} ∧
    c_pid ch = nextPid w ∧ fresh ch ∧
    c_timeout ch = startupTimeout (config m) ∧
    c_spawn ch =
      (let packageManager :=
         detectPackageManager (pathModule w) (fileSystem w)
           (PathResolver.resolveAbsolutePath (pathModule w) projectPath) in
       let isWindows := String.eqb (platform w) "win32" in
       {| sp_command := if isWindows then "cmd.exe"%string else packageManager;
          sp_args := if isWindows
                     then [ "/c"; packageManager +:+ ".cmd"; "run"; "dev" ]
                     else [ "run"; "dev" ]%string;
          sp_cwd := PathResolver.resolveAbsolutePath (pathModule w) projectPath;
          sp_env := composeEnv (processEnv w) port (opt_env options) |}) ∧
    m' = {| config := config m; clock := clock m;
            processes := <[nextPid w := c_info ch]> (processes m);
            children := children m ++ [ch];
            stopCalls := stopCalls m |}.
Proof.
  unfold start.
  destruct (PathResolver.validateProjectPath _ _ _) as [ok|e] eqn:Hvalid;
    [|done].
  destruct (resolvePort _ _ _) as [port|e] eqn:Hport; [|done].
  intros [= <- <-].
  match goal with
  | |- context [children m ++ [?x]] => exists port, x
  end.
  split; [done|]. split.
  { apply validateProjectPath_Ok. by exists ok. }
  repeat split.
Qed.

Lemma start_Err_inv w projectPath options m m' e :
  start w projectPath options m = (m', Err e) →
  m' = m ∧
  ¬ (projectValid w projectPath ∧
     (portGiven options ∨
      portAvailable w (defaultPort (config m)) = true)).
Proof.
  unfold start.
  destruct (PathResolver.validateProjectPath _ _ _) as [ok|e0] eqn:Hvalid.
  - destruct (resolvePort _ _ _) as [port|e1] eqn:Hport; [done|].
    intros [= <- <-]. split; [done|].
    apply resolvePort_Err in Hport as [Hnot Htaken].
    intros [_ [?|?]]; [done|congruence].
  - intros [= <- <-]. split; [done|].
    intros [Hproject _].
    apply validateProjectPath_Ok in Hproject as [ok Hok]. congruence.
Qed.


(** X3: a port named by the caller is taken as it is: [start] registers
    the child on that port without probing it, whether or not the port is
    free. *)
Theorem start_uses_named_port w projectPath options m p :
  projectValid w projectPath →
  opt_port options = Some p → p ≠ 0 →
  ∃ m' c info,
    start w projectPath options m = (m', Ok c) ∧
    processes m' !! nextPid w = Some info ∧ pi_port info = p.
Proof.
  intros Hvalid Hp Hnonzero.
  destruct (start w projectPath options m) as [m' [c|e]] eqn:Hstart.
  - pose proof Hstart as Hinv.
    apply start_Ok_inv in Hinv
      as (port & ch & Hport & _ & _ & Hinfo & _ & _ & _ & _ & ->).
    eexists _, c, (c_info ch). split; [done|]. simpl.
    split; [by rewrite lookup_insert_eq|].
    rewrite Hinfo. simpl.
    apply resolvePort_Ok in Hport as [[_ Hq]|[Hnot _]]; [congruence|].
    destruct Hnot. by exists p.
  - apply start_Err_inv in Hstart as [_ Hnot]. destruct Hnot.
    split; [done|]. left. by exists p.
Qed.

Lemma start_uses_named_port_witness :
  ∃ m' c info,
    start Examples.busy3000 "/srv/app" Scenarios.port3000
          (newManager defaultConfig) = (m', Ok c) ∧
    processes m' !! 4243 = Some info ∧ pi_port info = 3000.
Proof.
  apply (start_uses_named_port Examples.busy3000 "/srv/app"
           Scenarios.port3000 (newManager defaultConfig) 3000).
  - split; vm_compute; eauto.
  - reflexivity.
  - lia.
Defined.



(** X5: the child runs in the project directory as [<manager> run dev],
    through [cmd.exe /c <manager>.cmd] on Windows, where the manager is
    pnpm, yarn or npm; unless the caller's environment sets PORT itself,
    the PORT the child sees is the port recorded for it in the Registry. *)
Theorem start_spawn_arguments w projectPath options m m' c :
  start w projectPath options m = (m', Ok c) →
  ∃ ch info packageManager,
    children m' !! c = Some ch ∧
    processes m' !! nextPid w = Some info ∧
    packageManager ∈ [ "pnpm"; "yarn"; "npm" ]%string ∧
    sp_cwd (c_spawn ch) = pi_projectPath info ∧
    (sp_command (c_spawn ch), sp_args (c_spawn ch)) =
      (if String.eqb (platform w) "win32"
       then ("cmd.exe", [ "/c"; packageManager +:+ ".cmd"; "run"; "dev" ])
       else (packageManager, [ "run"; "dev" ]))%string ∧
    (default ∅ (opt_env options) !! "PORT"%string = None →
     sp_env (c_spawn ch) !! "PORT"%string = Some (EnvNumber (pi_port info))).
Proof.
  intros Hstart.
  apply start_Ok_inv in Hstart
    as (port & ch & Hport & _ & -> & Hinfo & _ & _ & _ & Hspawn & ->).
  eexists ch, (c_info ch), _. simpl.
  split; [by rewrite list_lookup_middle|].
  split; [by rewrite lookup_insert_eq|].
  split; [apply detectPackageManager_range|].
  rewrite Hspawn, Hinfo. simpl.
  split; [done|]. split; [by destruct (String.eqb _ _)|].
  intros Hnone.
  destruct (opt_env options) as [overrides|]; simpl in Hnone.
  - unfold composeEnv, spread. rewrite lookup_union, Hnone.
    rewrite (left_id_L None _). rewrite (right_id_L ∅ (∪)).
    by simplify_map_eq.
  - unfold composeEnv, spread. rewrite (right_id_L ∅ (∪)).
    by simplify_map_eq.
Qed.

Lemma start_spawn_arguments_witness :
  ∃ ch, children Examples.spawned !! O = Some ch ∧
        sp_env (c_spawn ch) !! "PORT"%string = Some (EnvNumber 3000).
Proof.
  destruct (start_spawn_arguments Examples.quietWorld "/srv/app"
              Examples.noOptions (newManager defaultConfig)
              Examples.spawned O)
    as (ch & info & pm & Hc & Hinfo & _ & _ & _ & Hport).
  - vm_compute. reflexivity.
  - exists ch. split; [exact Hc|].
    rewrite Hport by reflexivity.
    vm_compute in Hinfo. injection Hinfo as <-. reflexivity.
Defined.

(** ** The ready check on the child's output *)

Lemma prefix_occurs needle : ∀ s,
  String.prefix needle s = true ↔ ∃ rest, s = needle +:+ rest.
Proof.
  induction needle as [|a needle IH]; intros s.
  - split; [intros _; by exists s|intros _; by destruct s].
  - destruct s as [|b s]; simpl.
    + split; [done|by intros [rest ?]].
    + destruct (Ascii.ascii_dec a b) as [->|Hne].
      * rewrite IH. split; intros [rest Hrest]; exists rest.
        -- by rewrite Hrest.
        -- by injection Hrest.
      * split; [done|]. intros [rest Hrest]. injection Hrest as ? ?. done.
Qed.

Lemma includes_unfold needle haystack :
  includes needle haystack =
    if String.prefix needle haystack then true
    else match haystack with
         | EmptyString => false
         | String _ rest => includes needle rest
         end.
Proof. by destruct haystack. Qed.

Lemma includes_occurs needle : ∀ haystack,
  includes needle haystack = true ↔ occursIn needle haystack.
Proof.
  intros haystack. split.
  - induction haystack as [|c rest IH]; rewrite includes_unfold;
      destruct (String.prefix needle _) eqn:Hprefix.
    + intros _. apply prefix_occurs in Hprefix as [after ->].
      by exists ""%string, after.
    + done.
    + intros _. apply prefix_occurs in Hprefix as [after ->].
      by exists ""%string, after.
    + intros (before & after & ->)%IH.
      by exists (String c before), after.
  - intros (before & after & ->).
    induction before as [|c before IH]; rewrite includes_unfold.
    + assert (String.prefix needle (needle +:+ after) = true) as Hprefix
        by (apply prefix_occurs; by exists after).
      change ("" +:+ needle +:+ after)%string with (needle +:+ after).
      by rewrite Hprefix.
    + change (String c before +:+ needle +:+ after)
        with (String c (before +:+ needle +:+ after)).
      cbv beta iota. rewrite IH. by destruct (String.prefix _ _).
Qed.

(** X6: a chunk of output counts as ready exactly when one of the three
    banners occurs in it as a contiguous piece: the Next.js banner, the
    Create React App banner, or the Vite banner for the child's own
    port. *)
Theorem isReadyOutput_occurs port output :
  isReadyOutput port output = true ↔
  occursIn "ready - started server on" output ∨
  occursIn "Compiled successfully" output ∨
  occursIn ("Local:   http://localhost:" +:+ pretty port) output.
Proof.
  unfold isReadyOutput.
  rewrite !orb_true_iff, !includes_occurs. tauto.
Qed.

Lemma list_alter_fixed {A} (f : A → A) (l : list A) i x :
  l !! i = Some x → f x = x → alter f i l = l.
Proof.
  intros Hi Hfx. apply list_eq. intros j.
  rewrite list_lookup_alter. case_decide as Heq; [|done].
  subst j. rewrite Hi. simpl. by rewrite Hfx.
Qed.

Lemma updateChild_fixed c f m ch :
  children m !! c = Some ch → f ch = ch → updateChild c f m = m.
Proof.
  intros Hc Hf. unfold updateChild, withChildren.
  rewrite (list_alter_fixed f _ c ch) by done. by destruct m.
Qed.

(** X7: [checkReady] looks at one chunk at a time. Chunks none of which
    is ready on its own leave the supervisor exactly as it was, also when
    a banner is spread over two of them. *)
Theorem unready_chunks_change_nothing m c ch chunks :
  children m !! c = Some ch →
  Forall (fun data => isReadyOutput (pi_port (c_info ch)) data = false) chunks →
  run m (StdoutData c <$> chunks) = m.
Proof.
  intros Hc Hchunks. induction Hchunks as [|data chunks Hdata _ IH]; [done|].
  rewrite fmap_cons. unfold run. simpl. fold (run (updateChild c (onStdoutData data) m)
    (StdoutData c <$> chunks)).
  rewrite (updateChild_fixed c _ m ch Hc); [done|].
  unfold onStdoutData. rewrite Hdata. by destruct (checkReadyListener _).
Qed.

Lemma unready_chunks_change_nothing_witness :
  isReadyOutput 3000 (String.concat "" Scenarios.splitBanner) = true ∧
  run Examples.spawned (StdoutData 0 <$> Scenarios.splitBanner)
    = Examples.spawned.
Proof.
  split; [reflexivity|].
  destruct (children Examples.spawned !! O) as [ch|] eqn:Hc;
    [|vm_compute in Hc; discriminate].
  apply (unready_chunks_change_nothing Examples.spawned O ch
           Scenarios.splitBanner Hc).
  vm_compute in Hc. injection Hc as <-.
  repeat constructor.
Defined.

(** ** The readiness race, continued *)



Lemma handler_poller_off f :
  handler f → ∀ ch,
  pollerActive (c_race ch) = false → pollerActive (c_race (f ch)) = false.
Proof.
  intros Hf ch Hoff.
  destruct (handler_race f ch Hf) as [->|[(s & ->)|(s & Hon & _)]];
    [done|done|congruence].
Qed.

(** X9: the poll loop of [waitForPort] ends with the first poll that
    completes once the startup timeout has elapsed since spawn, whatever
    that poll finds, and nothing starts it again. *)
Theorem poller_ends_at_deadline m c ch available events :
  children m !! c = Some ch →
  c_timeout ch ≤ clock m - pi_startTime (c_info ch) →
  ∃ ch', children (run (step m (PortPolled c available)) events) !! c
           = Some ch' ∧
         pollerActive (c_race ch') = false.
Proof.
  intros Hc Hlate.
  assert (pollerActive (c_race (onPortPoll available (clock m) ch)) = false)
    as Hoff.
  { unfold onPortPoll.
    destruct (pollerActive (c_race ch)) eqn:Hon; [|done].
    destruct available; simpl; [|done].
    by rewrite (proj2 (Z.leb_le _ _) Hlate). }
  assert (children (step m (PortPolled c available)) !! c
          = Some (onPortPoll available (clock m) ch)) as Hc1.
  { simpl. by rewrite list_lookup_alter_eq, Hc. }
  destruct (run_related
              (fun ch1 ch2 => pollerActive (c_race ch1) = false →
                              pollerActive (c_race ch2) = false)
              (fun _ H => H) (fun _ _ _ H12 H23 H => H23 (H12 H))
              handler_poller_off events _ c _ Hc1) as (ch' & Hc' & Hoff').
  exists ch'. split; [done|]. by apply Hoff'.
Qed.

Lemma poller_ends_at_deadline_witness :
  ∃ ch', children (run (step Examples.timedOut (PortPolled 0 true)) [])
           !! O = Some ch' ∧
         pollerActive (c_race ch') = false.
Proof.
  destruct (children Examples.timedOut !! O) as [ch|] eqn:Hc;
    [|vm_compute in Hc; discriminate].
  apply (poller_ends_at_deadline Examples.timedOut O ch true [] Hc).
  vm_compute in Hc. injection Hc as <-. vm_compute. discriminate.
Defined.

(** X10: in every state the supervisor can reach, a settled race is dead
    to everything but the port poller: the startup timer, stdout chunks,
    exit, error and close of the child, and any stop or escalation, leave
    it exactly as it is. *)
Theorem settled_race_ignores_events cfg actions c ch o e :
  let m := exec (newManager cfg) actions in
  children m !! c = Some ch →
  outcome (c_race ch) = Some o →
  (∀ available, e ≠ PortPolled c available) →
  ∃ ch', children (step m e) !! c = Some ch' ∧ c_race ch' = c_race ch.
Proof.
  intros m Hc Ho Hnot.
  pose proof (reachable_raceWf _ _ _ _ Hc) as Hwf.
  unfold raceWf in Hwf. rewrite Ho in Hwf.
  destruct Hwf as (Ht & Hx & He & Hr & _).
  assert (∀ f c0, c_race (f ch) = c_race ch →
            ∃ ch', alter f c0 (children m) !! c = Some ch' ∧
                   c_race ch' = c_race ch) as Halter.
  { intros f c0 Hf. rewrite list_lookup_alter. case_decide.
    - subst c0. rewrite Hc. by exists (f ch).
    - by exists ch. }
  destruct e as [ms|c0|c0 data|c0 code|c0 err|c0|c0 available|k]; simpl.
  - by exists ch.
  - apply Halter. unfold onStartupTimeout. by rewrite Ht.
  - apply Halter. unfold onStdoutData. by rewrite Hr.
  - apply Halter. unfold onChildExit. by rewrite Hx.
  - apply Halter. unfold onChildError. by rewrite He.
  - unfold onChildClose. destruct (children m !! c0); simpl;
      [by apply Halter|by exists ch].
  - destruct (decide (c0 = c)) as [->|Hne]; [by destruct (Hnot available)|].
    rewrite list_lookup_alter_ne by done. by exists ch.
  - unfold onEscalation.
    destruct (stopCalls m !! k) as [call|]; [|by exists ch].
    destruct (st_timerArmed call); [|by exists ch].
    case_bool_decide; simpl; [by apply Halter|by exists ch].
Qed.

Lemma settled_race_ignores_events_witness :
  ∃ ch ch', children Examples.readyByStdout !! O = Some ch ∧
    children (step Examples.readyByStdout (ChildExits 0 (Some 1))) !! O
      = Some ch' ∧
    c_race ch' = c_race ch.
Proof.
  destruct (children Examples.readyByStdout !! O) as [ch|] eqn:Hc;
    [|vm_compute in Hc; discriminate].
  destruct (outcome (c_race ch)) as [o|] eqn:Ho.
  - destruct (settled_race_ignores_events defaultConfig Examples.readyActions
                O ch o (ChildExits 0 (Some 1)) Hc Ho) as (ch' & Hc' & Hrace);
      [done|].
    by exists ch, ch'.
  - exfalso. vm_compute in Hc. injection Hc as <-.
    vm_compute in Ho. discriminate.
Defined.

(** ** The shape of the Registry, the heap and the stop calls *)

Lemma raceHandler_fields f :
  raceHandler f → ∀ ch,
  c_pid (f ch) = c_pid ch ∧ c_info (f ch) = c_info ch ∧
  c_closed (f ch) = c_closed ch ∧ c_kills (f ch) = c_kills ch.
Proof.
  intros Hf ch. destruct Hf; simpl.
  - unfold onStartupTimeout. by case_match.
  - unfold onStdoutData. by repeat case_match.
  - unfold onChildExit. by case_match.
  - unfold onChildError. by case_match.
  - unfold onPortPoll. by repeat case_match.
Qed.

(** Entries survive a change of one child that keeps its pid, record and
    open state. *)
Lemma entries_alter m m' c f :
  processes m' = processes m →
  children m' = alter f c (children m) →
  (∀ ch, c_pid (f ch) = c_pid ch ∧ c_info (f ch) = c_info ch ∧
         c_closed (f ch) = c_closed ch) →
  (∀ processId info, processes m !! processId = Some info →
                     entryWf m processId info) →
  ∀ processId info, processes m' !! processId = Some info →
                    entryWf m' processId info.
Proof.
  intros Hps Hcs Hf Hwf processId info Hinfo. rewrite Hps in Hinfo.
  destruct (Hwf _ _ Hinfo) as (Hid & ch & Hc & Hpid & Hrec & Hopen).
  split; [done|]. rewrite Hcs, list_lookup_alter. case_decide.
  - subst c. rewrite Hc. exists (f ch).
    destruct (Hf ch) as (-> & -> & ->). done.
  - by exists ch.
Qed.

Lemma stopCall_alter m m' c f call :
  children m' = alter f c (children m) →
  (∀ ch, c_pid (f ch) = c_pid ch ∧
         (SIGTERM ∈ c_kills ch → SIGTERM ∈ c_kills (f ch))) →
  stopCallWf m call → stopCallWf m' call.
Proof.
  intros Hcs Hf (ch & Hc & Hpid & Hterm). unfold stopCallWf.
  rewrite Hcs, list_lookup_alter. case_decide.
  - subst c. rewrite Hc. exists (f ch). destruct (Hf ch) as [-> Hmono]. auto.
  - by exists ch.
Qed.

Lemma killsOrdered_kill sig ch :
  killsOrdered ch → sig = SIGTERM ∨ SIGTERM ∈ c_kills ch →
  killsOrdered (killChild sig ch).
Proof.
  unfold killsOrdered. simpl. destruct (c_kills ch) as [|first rest]; simpl.
  - intros _ [->|Hin]; [done|]. by apply elem_of_nil in Hin.
  - done.
Qed.

Lemma step_supervisorWf m e : supervisorWf m → supervisorWf (step m e).
Proof.
  intros (Hentries & Hcalls & Hkills).
  assert (∀ c f, raceHandler f → supervisorWf (updateChild c f m)) as Hrace.
  { intros c f Hf.
    pose proof (raceHandler_fields f Hf) as Hfields.
    split; [|split].
    - apply (entries_alter m _ c f); [done|done| |done].
      intros ch. by destruct (Hfields ch) as (? & ? & ? & _).
    - intros k call Hk. apply (stopCall_alter m _ c f); [done| |by eapply Hcalls].
      intros ch. destruct (Hfields ch) as (? & _ & _ & ->). done.
    - simpl. apply Forall_alter; [done|].
      intros ch _. unfold killsOrdered.
      by destruct (Hfields ch) as (_ & _ & _ & ->). }
  destruct e as [ms|c|c data|c code|c err|c|c available|k]; simpl;
    try (apply Hrace; constructor).
  - done.
  - unfold onChildClose.
    destruct (children m !! c) as [chc|] eqn:Hc; [|done].
    split; [|split]; simpl.
    + intros processId info Hinfo.
      apply foldl_stopCloseListener_Some in Hinfo.
      apply lookup_delete_Some in Hinfo as [Hne Hinfo].
      destruct (Hentries _ _ Hinfo) as (Hid & ch & Hch & Hpid & Hrec & Hopen).
      split; [done|]. exists ch. simpl.
      rewrite list_lookup_alter_ne; [done|].
      intros Heq. rewrite <- Heq in Hch. congruence.
    + intros k call' Hk. rewrite list_lookup_fmap in Hk.
      destruct (stopCalls m !! k) as [call|] eqn:Hcall; [|done].
      injection Hk as <-.
      assert (stopCallWf
                {| config := config m; clock := clock m;
                   processes := processes m;
                   children := alter markClosed c (children m);
                   stopCalls := stopCalls m |} call) as Hwf.
      { apply (stopCall_alter m _ c markClosed); [done|done|by eapply Hcalls]. }
      unfold stopCallWf in *. unfold resolveStop. by case_bool_decide.
    + by apply Forall_alter.
  - unfold onEscalation.
    destruct (stopCalls m !! k) as [call|] eqn:Hk; [|done].
    destruct (st_timerArmed call); [|done].
    assert (∀ k' call', alter disarm k (stopCalls m) !! k' = Some call' →
                        stopCallWf m call') as Hcalls'.
    { intros k' call'. rewrite list_lookup_alter. case_decide.
      - subst k'. rewrite Hk. simpl. intros [= <-].
        exact (Hcalls k call Hk).
      - apply Hcalls. }
    case_bool_decide; [|done].
    destruct (Hcalls _ _ Hk) as (chk & Hchk & _ & Hterm).
    split; [|split].
    + by apply (entries_alter m _ (st_child call) (killChild SIGKILL)).
    + intros k' call' Hk'.
      apply (stopCall_alter m _ (st_child call) (killChild SIGKILL));
        [done| |by eapply Hcalls'].
      intros ch. split; [done|]. simpl. rewrite elem_of_app. auto.
    + simpl. apply Forall_alter; [done|].
      intros ch Hch Hord. apply killsOrdered_kill; [done|].
      right. congruence.
Qed.

Lemma stop_supervisorWf processId m :
  supervisorWf m → supervisorWf (stop processId m).1.
Proof.
  intros (Hentries & Hcalls & Hkills).
  destruct (processes m !! processId) as [info|] eqn:Hinfo.
  - rewrite (stop_tracked _ _ _ Hinfo). simpl.
    destruct (Hentries _ _ Hinfo) as (_ & ch & Hch & Hpid & _).
    split; [|split].
    + by apply (entries_alter m _ (pi_process info) (killChild SIGTERM)).
    + intros k call Hk. simpl in Hk.
      apply lookup_app_Some in Hk as [Hk|[_ Hk]].
      * apply (stopCall_alter m _ (pi_process info) (killChild SIGTERM));
          [done| |by eapply Hcalls].
        intros ch0. split; [done|]. simpl. rewrite elem_of_app. auto.
      * apply list_lookup_singleton_Some in Hk as [_ <-].
        unfold stopCallWf, newStopCall. simpl. rewrite Hinfo.
        rewrite list_lookup_alter_eq, Hch. simpl.
        eexists. split; [done|]. split; [done|]. simpl.
        rewrite elem_of_app. right. by left.
    + simpl. apply Forall_alter; [done|].
      intros ch0 _ Hord. apply killsOrdered_kill; auto.
  - unfold stop. by rewrite Hinfo.
Qed.

Lemma stopEach_supervisorWf keys : ∀ m,
  supervisorWf m → supervisorWf (stopEach keys m).1.
Proof.
  induction keys as [|processId keys IH]; intros m Hwf; [done|].
  cbn [stopEach].
  pose proof (stop_supervisorWf processId m Hwf) as H1.
  destruct (stop processId m) as [m1 promise]. simpl in H1.
  specialize (IH m1 H1).
  by destruct (stopEach keys m1) as [m2 promises].
Qed.

Lemma start_supervisorWf w projectPath options m :
  supervisorWf m → supervisorWf (start w projectPath options m).1.
Proof.
  intros (Hentries & Hcalls & Hkills).
  destruct (start w projectPath options m) as [m' [c|e]] eqn:Hstart.
  - apply start_Ok_inv in Hstart
      as (port & ch & _ & _ & -> & Hinfo & Hpid & Hfresh & _ & _ & ->).
    destruct Hfresh as (_ & _ & Hopen & Hnokill).
    split; [|split]; simpl.
    + intros processId info Hlook.
      apply lookup_insert_Some in Hlook as [[<- <-]|[Hne Hlook]].
      * split; [by rewrite Hinfo|]. exists ch. simpl.
        rewrite Hinfo at 1. simpl. by rewrite list_lookup_middle.
      * destruct (Hentries _ _ Hlook) as (Hid & ch0 & Hch0 & ?).
        split; [done|]. exists ch0. simpl.
        rewrite lookup_app_l; [done|]. by eapply lookup_lt_Some.
    + intros k call Hk. destruct (Hcalls _ _ Hk) as (ch0 & Hch0 & ?).
      exists ch0. simpl. rewrite lookup_app_l; [done|].
      by eapply lookup_lt_Some.
    + apply Forall_app. split; [done|]. apply Forall_singleton.
      unfold killsOrdered. by rewrite Hnokill.
  - apply start_Err_inv in Hstart as [-> _]. done.
Qed.

Lemma perform_supervisorWf m a : supervisorWf m → supervisorWf (perform m a).
Proof.
  destruct a as [w projectPath options|processId| |e]; simpl.
  - apply start_supervisorWf.
  - apply stop_supervisorWf.
  - apply stopEach_supervisorWf.
  - apply step_supervisorWf.
Qed.

Lemma reachable_supervisorWf cfg actions :
  supervisorWf (exec (newManager cfg) actions).
Proof.
  assert (∀ m, supervisorWf m → supervisorWf (exec m actions)) as Hexec.
  { induction actions as [|a actions IH]; intros m Hm; [done|].
    apply IH. by apply perform_supervisorWf. }
  apply Hexec. split; [|split]; simpl.
  - intros processId info Hlook. by rewrite lookup_empty in Hlook.
  - intros k call Hk. by rewrite lookup_nil in Hk.
  - constructor.
Qed.

(** X11: in every state the supervisor can reach, each Registry entry is
    filed under the pid of a child that exists, that child holds the very
    same record, and its 'close' event has not fired: no entry is stale. *)
Theorem registry_entries_live cfg actions processId info :
  processes (exec (newManager cfg) actions) !! processId = Some info →
  pi_id info = processId ∧
  ∃ ch, children (exec (newManager cfg) actions) !! pi_process info = Some ch ∧
        c_pid ch = processId ∧ c_info ch = info ∧ c_closed ch = false.
Proof.
  intros Hinfo.
  destruct (reachable_supervisorWf cfg actions) as (Hentries & _ & _).
  exact (Hentries _ _ Hinfo).
Qed.

Lemma registry_entries_live_witness :
  ∃ info ch, processes Examples.readyByStdout !! 4242 = Some info ∧
    children Examples.readyByStdout !! pi_process info = Some ch ∧
    c_closed ch = false.
Proof.
  destruct (processes Examples.readyByStdout !! 4242) as [info|] eqn:Hinfo;
    [|vm_compute in Hinfo; discriminate].
  destruct (registry_entries_live defaultConfig Examples.readyActions
              4242 info Hinfo) as (_ & ch & Hch & _ & _ & Hopen).
  by exists info, ch.
Defined.

Lemma foldl_stopCloseListener_same c pid calls : ∀ (ps : gmap Z ProcessInfo),
  ps !! pid = None →
  (∀ call, call ∈ calls → st_child call = c → st_processId call = pid) →
  foldl (stopCloseListener c) ps calls = ps.
Proof.
  induction calls as [|call calls IH]; intros ps Hgone Hcalls; [done|].
  simpl.
  assert (stopCloseListener c ps call = ps) as ->.
  { unfold stopCloseListener. case_bool_decide as Hchild; [|done].
    rewrite (Hcalls call) by (done || by left). by apply delete_id. }
  apply IH; [done|]. intros call' Hin. apply Hcalls. by right.
Qed.

(** X12: in every state the supervisor can reach, the 'close' event of a
    child removes the entry under that child's pid and no other entry,
    however many stop calls are waiting for it. *)
Theorem close_removes_only_own_pid cfg actions c ch :
  let m := exec (newManager cfg) actions in
  children m !! c = Some ch →
  processes (step m (ChildCloses c)) = delete (c_pid ch) (processes m).
Proof.
  intros m Hc.
  destruct (reachable_supervisorWf cfg actions) as (_ & Hcalls & _).
  simpl. unfold onChildClose. fold m. rewrite Hc. simpl.
  apply (foldl_stopCloseListener_same c (c_pid ch)).
  - apply lookup_delete_eq.
  - intros call Hin Hchild.
    apply list_elem_of_lookup in Hin as [k Hk].
    destruct (Hcalls _ _ Hk) as (ch' & Hch' & Hpid & _).
    fold m in Hch'. rewrite Hchild, Hc in Hch'. by injection Hch' as <-.
Qed.

Lemma close_removes_only_own_pid_witness :
  processes (step Scenarios.stoppedTwice (ChildCloses 0))
    = delete 4242 (processes Scenarios.stoppedTwice).
Proof.
  destruct (children Scenarios.stoppedTwice !! O) as [ch|] eqn:Hc;
    [|vm_compute in Hc; discriminate].
  assert (c_pid ch = 4242) as <-.
  { vm_compute in Hc. by injection Hc as <-. }
  apply (close_removes_only_own_pid defaultConfig
           (Examples.readyActions ++ [CallStop 4242; CallStop 4242]) O ch).
  exact Hc.
Defined.

(** X13: in every state the supervisor can reach, a child is never sent
    the forceful signal first: whatever signals it got, the first one was
    the graceful one. *)
Theorem graceful_signal_first cfg actions c ch :
  children (exec (newManager cfg) actions) !! c = Some ch →
  c_kills ch ≠ [] →
  ∃ rest, c_kills ch = SIGTERM :: rest.
Proof.
  intros Hc Hsome.
  destruct (reachable_supervisorWf cfg actions) as (_ & _ & Hkills).
  rewrite Forall_lookup in Hkills. specialize (Hkills _ _ Hc).
  unfold killsOrdered in Hkills.
  destruct (c_kills ch) as [|first rest]; [done|].
  exists rest. by rewrite Hkills.
Qed.

Lemma graceful_signal_first_witness :
  ∃ ch rest, children Scenarios.stoppedTwice !! O = Some ch ∧
             c_kills ch = SIGTERM :: rest.
Proof.
  destruct (children Scenarios.stoppedTwice !! O) as [ch|] eqn:Hc;
    [|vm_compute in Hc; discriminate].
  destruct (graceful_signal_first defaultConfig
              (Examples.readyActions ++ [CallStop 4242; CallStop 4242]) O ch Hc)
    as [rest Hrest].
  - vm_compute in Hc. injection Hc as <-. discriminate.
  - by exists ch, rest.
Defined.

Lemma run_processes_unchanged events : ∀ m,
  (∀ c, ChildCloses c ∉ events) → processes (run m events) = processes m.
Proof.
  induction events as [|e events IH]; intros m Hnot; [done|].
  simpl. rewrite IH.
  - apply step_processes_unchanged. intros c ->. apply (Hnot c). by left.
  - intros c Hin. apply (Hnot c). by right.
Qed.

(** X14: when no 'close' event has been delivered by the time the
    escalation timer of a stop fires, the timer calls [kill('SIGKILL')] on
    the child, whether or not the child has exited in the meantime. *)
Theorem escalation_kills_unclosed processId m info events :
  processes m !! processId = Some info →
  (∀ c, ChildCloses c ∉ events) →
  EscalationTimerFires (length (stopCalls m)) ∉ events →
  let m2 := run (stop processId m).1 events in
  children (step m2 (EscalationTimerFires (length (stopCalls m))))
    = alter (killChild SIGKILL) (pi_process info) (children m2).
Proof.
  intros Hinfo Hnoclose Hnofire m2.
  assert (stopCalls (stop processId m).1 !! length (stopCalls m)
          = Some (newStopCall m processId)) as Hk.
  { rewrite (stop_tracked _ _ _ Hinfo). simpl. by rewrite list_lookup_middle. }
  destruct (escalation_stays_armed events _ _ _ Hk eq_refl Hnofire)
    as (call & Hcall & Hid & Hchild & Harmed).
  fold m2 in Hcall.
  assert (processes m2 !! processId = Some info) as Htracked.
  { unfold m2. rewrite run_processes_unchanged by done.
    by rewrite (stop_tracked _ _ _ Hinfo). }
  simpl. unfold onEscalation. rewrite Hcall, Harmed.
  rewrite Hid, Hchild. unfold newStopCall. simpl. rewrite Hinfo.
  rewrite bool_decide_eq_true_2; [done|by eexists].
Qed.

Lemma escalation_kills_unclosed_witness :
  ∃ ch, children (run Examples.stopping
                      [ ChildExits 0 None; Tick 5000;
                        EscalationTimerFires 0 ]) !! O = Some ch ∧
        c_kills ch = [ SIGTERM; SIGKILL ].
Proof.
  assert (processes Examples.readyByStdout !! 4242 = Some
            {| pi_id := 4242; pi_port := 3000; pi_projectPath := "/srv/app";
               pi_startTime := 0; pi_process := 0 |}) as Hinfo
    by (vm_compute; reflexivity).
  pose proof (escalation_kills_unclosed 4242 Examples.readyByStdout _
                [ ChildExits 0 None; Tick 5000 ] Hinfo) as Hfire.
  eexists. split.
  - change (run Examples.stopping
              [ ChildExits 0 None; Tick 5000; EscalationTimerFires 0 ])
      with (step (run (stop 4242 Examples.readyByStdout).1
                      [ ChildExits 0 None; Tick 5000 ])
                 (EscalationTimerFires
                    (length (stopCalls Examples.readyByStdout)))).
    rewrite Hfire.
    + vm_compute. reflexivity.
    + intros c Hin. repeat (apply elem_of_cons in Hin as [Hin|Hin];
                            [discriminate|]).
      by apply elem_of_nil in Hin.
    + intros Hin. repeat (apply elem_of_cons in Hin as [Hin|Hin];
                          [discriminate|]).
      by apply elem_of_nil in Hin.
  - reflexivity.
Defined.

(** X15: [stop] does not guard against being called twice. A second
    [stop] on an id whose first stop is still waiting is accepted as well,
    sends the graceful signal a second time, and the one 'close' event of
    the child resolves both promises. *)
Theorem stop_twice processId m info ch :
  processes m !! processId = Some info →
  children m !! pi_process info = Some ch →
  let k := length (stopCalls m) in
  let m1 := (stop processId m).1 in
  let m2 := (stop processId m1).1 in
  (stop processId m1).2 = Ok (S k) ∧
  children m2 !! pi_process info
    = Some (killChild SIGTERM (killChild SIGTERM ch)) ∧
  stopResolved m2 k = false ∧ stopResolved m2 (S k) = false ∧
  stopResolved (step m2 (ChildCloses (pi_process info))) k = true ∧
  stopResolved (step m2 (ChildCloses (pi_process info))) (S k) = true.
Proof.
  intros Hinfo Hch k m1 m2.
  assert (processes m1 !! processId = Some info) as Hinfo1.
  { unfold m1. by rewrite (stop_tracked _ _ _ Hinfo). }
  assert (stopCalls m1 = stopCalls m ++ [newStopCall m processId]) as Hcalls1.
  { unfold m1. by rewrite (stop_tracked _ _ _ Hinfo). }
  assert (children m1 !! pi_process info = Some (killChild SIGTERM ch))
    as Hch1.
  { unfold m1. rewrite (stop_tracked _ _ _ Hinfo). simpl.
    by rewrite list_lookup_alter_eq, Hch. }
  assert (length (stopCalls m1) = S k) as Hlen.
  { rewrite Hcalls1, length_app. simpl. unfold k. lia. }
  assert (stopCalls m2 = stopCalls m ++ [newStopCall m processId;
                                         newStopCall m1 processId])
    as Hcalls2.
  { unfold m2. rewrite (stop_tracked _ _ _ Hinfo1). simpl.
    by rewrite Hcalls1, <- app_assoc. }
  assert (children m2 !! pi_process info
          = Some (killChild SIGTERM (killChild SIGTERM ch))) as Hch2.
  { unfold m2. rewrite (stop_tracked _ _ _ Hinfo1). simpl.
    by rewrite list_lookup_alter_eq, Hch1. }
  assert (stopCalls m2 !! k = Some (newStopCall m processId)) as Hk.
  { rewrite Hcalls2. by rewrite list_lookup_middle. }
  assert (stopCalls m2 !! S k = Some (newStopCall m1 processId)) as HSk.
  { rewrite Hcalls2, lookup_app_r by (unfold k; lia).
    replace (S k - length (stopCalls m))%nat with 1%nat by (unfold k; lia).
    done. }
  split; [rewrite (stop_tracked _ _ _ Hinfo1); simpl; by rewrite Hlen|].
  split; [done|].
  split; [unfold stopResolved; by rewrite Hk|].
  split; [unfold stopResolved; by rewrite HSk|].
  assert (st_child (newStopCall m processId) = pi_process info) as Hc0.
  { unfold newStopCall. simpl. by rewrite Hinfo. }
  assert (st_child (newStopCall m1 processId) = pi_process info) as Hc1.
  { unfold newStopCall. simpl. by rewrite Hinfo1. }
  split.
  - rewrite <- Hc0. eapply close_resolves_stop; [done|]. by rewrite Hc0.
  - rewrite <- Hc1. eapply close_resolves_stop; [done|]. by rewrite Hc1.
Qed.

Lemma stop_twice_witness :
  stopResolved (step Scenarios.stoppedTwice (ChildCloses 0)) 0 = true ∧
  stopResolved (step Scenarios.stoppedTwice (ChildCloses 0)) 1 = true.
Proof.
  destruct (processes Examples.readyByStdout !! 4242) as [info|] eqn:Hinfo;
    [|vm_compute in Hinfo; discriminate].
  destruct (children Examples.readyByStdout !! pi_process info)
    as [ch|] eqn:Hch.
  - destruct (stop_twice 4242 Examples.readyByStdout info ch Hinfo Hch)
      as (_ & _ & _ & _ & H0 & H1).
    vm_compute in Hinfo. injection Hinfo as <-.
    split; [exact H0|exact H1].
  - exfalso. vm_compute in Hinfo. injection Hinfo as <-.
    vm_compute in Hch. discriminate.
Defined.

(** ** The HTTP routes *)

Lemma errorMessage_nonempty e : String.eqb (Server.errorMessage e) "" = false.
Proof. destruct e as [p|p|a b|processId|[|c identifier]]; reflexivity. Qed.

(** X16: the route [POST /api/process/stop/:processId] never stops
    anything. It passes the route parameter, a string, to [stop], while the
    Registry is keyed by numeric pids; so for every parameter and every
    state it answers 500 with the not-found message and leaves the
    supervisor as it is, also when the parameter spells the pid of a
    tracked process. *)
Theorem stopRoute_never_stops development processId m :
  Server.stopRoute development processId m =
    (m, Server.Responded
          (Server.ErrorResponse 500
             ("No process found with ID: " +:+ processId) development)).
Proof. reflexivity. Qed.

(** X17: on [POST /api/process/start], a body without [projectPath] (or
    with an empty one) is answered 400 before [start] is called, and every
    error [start] throws before it spawns is answered 500 with the message
    of that error; the supervisor is unchanged in both cases. *)
Theorem startRoute_errors development w projectPath options m :
  (projectPath = None ∨ projectPath = Some ""%string →
   Server.startRoute development w projectPath options m =
     (m, Server.Responded (Server.BadRequest "projectPath is required"))) ∧
  (∀ p e, projectPath = Some p → p ≠ ""%string →
     (start w p options m).2 = Err e →
     Server.startRoute development w projectPath options m =
       (m, Server.Responded
             (Server.ErrorResponse 500 (Server.errorMessage e) development))).
Proof.
  split.
  - by intros [->| ->].
  - intros p e -> Hp Hstart. unfold Server.startRoute.
    rewrite (proj2 (String.eqb_neq p "")) by done.
    destruct (start w p options m) as [m' [c|e']] eqn:Hrun; [done|].
    simpl in Hstart. injection Hstart as ->.
    apply start_Err_inv in Hrun as [-> _].
    unfold Server.errorHandler. by rewrite errorMessage_nonempty.
Qed.

Lemma startRoute_errors_witness :
  Server.startRoute false Examples.quietWorld (Some "/srv/nope"%string)
                    Examples.noOptions Examples.spawned =
    (Examples.spawned,
     Server.Responded
       (Server.ErrorResponse 500 "Directory does not exist: /srv/nope" false)).
Proof.
  destruct (startRoute_errors false Examples.quietWorld
              (Some "/srv/nope"%string) Examples.noOptions Examples.spawned)
    as [_ Hthrown].
  apply (Hthrown "/srv/nope"%string (DirectoryDoesNotExist "/srv/nope"));
    [reflexivity|discriminate|reflexivity].
Defined.

(** ** [pathResolver.js] *)

Lemma replaceBackslashes_get s : ∀ n,
  String.get n (PathResolver.replaceBackslashes s) ≠ Some "\"%char.
Proof.
  induction s as [|c s IH]; intros n; [by destruct n|].
  destruct n as [|n]; simpl; [|apply IH].
  destruct (Ascii.eqb c "\") eqn:Hc; [done|].
  intros [= ->]. by rewrite Ascii.eqb_refl in Hc.
Qed.

(** X18: whatever Node's [path] functions return, the path that
    [resolveAbsolutePath] hands back holds no backslash, and it has the
    length of the path it was normalized from. *)
Theorem resolveAbsolutePath_no_backslash P pathStr :
  (∀ n, String.get n (PathResolver.resolveAbsolutePath P pathStr)
        ≠ Some "\"%char) ∧
  String.length (PathResolver.resolveAbsolutePath P pathStr) =
    String.length
      (if path_isAbsolute P pathStr
       then path_normalize P pathStr
       else path_normalize P (path_resolve P (process_cwd P) pathStr)).
Proof.
  assert (∀ s, String.length (PathResolver.replaceBackslashes s)
               = String.length s) as Hlen.
  { induction s as [|c s IH]; simpl; [done|]. by rewrite IH. }
  unfold PathResolver.resolveAbsolutePath, PathResolver.normalizePath.
  split.
  - intros n. destruct (path_isAbsolute P pathStr);
      apply replaceBackslashes_get.
  - destruct (path_isAbsolute P pathStr); apply Hlen.
Qed.

(** ** [screenshotService.js]: a batch of captures *)

Lemma captureEach_account {Service Data : Type}
    (capture : Service → string → option string → Service * (Data + string))
    N fileName urls : ∀ index sv results errors,
  let '(sv', results', errors') :=
    ScreenshotService.captureEach capture N fileName index urls sv
                                  results errors in
  (length results' + length errors'
   = length results + length errors + length urls)%nat ∧
  results'.*1 ++ errors'.*1 ≡ₚ (results.*1 ++ errors.*1) ++ urls ∧
  (errors' = [] → errors = []).
Proof.
  induction urls as [|url urls IH]; intros index sv results errors.
  - simpl. split; [lia|]. split; [by rewrite app_nil_r|done].
  - cbn [ScreenshotService.captureEach].
    destruct (capture sv url _) as [sv1 [data|message]].
    + specialize (IH (S index) sv1 (results ++ [(url, data)]) errors).
      destruct (ScreenshotService.captureEach _ _ _ _ _ _ _ _)
        as [[sv' results'] errors'].
      destruct IH as (Hlen & Hperm & Herr).
      rewrite length_app in Hlen. simpl in *.
      split; [lia|]. split; [|done].
      rewrite Hperm, fmap_app. simpl.
      rewrite <- !app_assoc. apply Permutation_app_head.
      simpl. apply Permutation_middle.
    + specialize (IH (S index) sv1 results (errors ++ [(url, message)])).
      destruct (ScreenshotService.captureEach _ _ _ _ _ _ _ _)
        as [[sv' results'] errors'].
      destruct IH as (Hlen & Hperm & Herr).
      rewrite length_app in Hlen. simpl in *.
      split; [lia|]. split.
      * rewrite Hperm, fmap_app. simpl. by rewrite <- !app_assoc.
      * intros Hnil. apply Herr in Hnil. by destruct errors.
Qed.

(** X19: [captureMultipleScreenshots] tries every url, whatever happens to
    the ones before it: [total] is the number of urls, [successful] and
    [failed] add up to it, the urls of the results and of the errors are
    together exactly the urls given, and [errors] is left out of the report
    exactly when nothing failed. *)
Theorem captureMultipleScreenshots_accounts {Service Data : Type}
    (capture : Service → string → option string → Service * (Data + string))
    N urls fileName sv :
  let report :=
    (ScreenshotService.captureMultipleScreenshots capture N urls fileName sv).2 in
  ScreenshotService.br_total report = length urls ∧
  (ScreenshotService.br_successful report
   + ScreenshotService.br_failed report)%nat = length urls ∧
  length (ScreenshotService.br_results report)
    = ScreenshotService.br_successful report ∧
  (ScreenshotService.br_results report).*1
    ++ (default [] (ScreenshotService.br_errors report)).*1 ≡ₚ urls ∧
  (ScreenshotService.br_errors report = None ↔
   ScreenshotService.br_failed report = O).
Proof.
  unfold ScreenshotService.captureMultipleScreenshots.
  pose proof (captureEach_account capture N fileName urls 0 sv [] []) as Hacc.
  destruct (ScreenshotService.captureEach _ _ _ _ _ _ _ _)
    as [[sv' results] errors].
  destruct Hacc as (Hlen & Hperm & _). simpl in *.
  split; [done|]. split; [lia|]. split; [done|]. split.
  - by destruct errors.
  - by destruct errors.
Qed.

(** ** [screenshotService.js]: cleaning up old screenshots *)

Section Cleanup.
Import ScreenshotService.
Variable locked : string → bool.
Variables now maxAgeMs : Z.

Lemma cleanupEntry_shrinks st entry :
  (∀ id sd, cl_screenshots (cleanupEntry locked now maxAgeMs st entry) !! id
              = Some sd → cl_screenshots st !! id = Some sd) ∧
  (∀ p stats, cl_disk (cleanupEntry locked now maxAgeMs st entry) !! p
                = Some stats → cl_disk st !! p = Some stats).
Proof.
  destruct entry as [id0 sd0]. unfold cleanupEntry.
  destruct (cl_disk st !! sd_path sd0) as [stats0|]; [|done].
  destruct (maxAgeMs <? now - stat_mtime stats0); [|done].
  destruct (locked (sd_path sd0)); [done|]. simpl. split.
  - intros id sd Hlook. by apply lookup_delete_Some in Hlook as [_ ?].
  - intros p stats Hlook. by apply lookup_delete_Some in Hlook as [_ ?].
Qed.

Lemma cleanupEntry_other st entry id :
  id ≠ entry.1 →
  cl_screenshots (cleanupEntry locked now maxAgeMs st entry) !! id
    = cl_screenshots st !! id.
Proof.
  destruct entry as [id0 sd0]. simpl. intros Hne. unfold cleanupEntry.
  destruct (cl_disk st !! sd_path sd0) as [stats0|]; [|done].
  destruct (maxAgeMs <? now - stat_mtime stats0); [|done].
  destruct (locked (sd_path sd0)); [done|]. simpl.
  by rewrite lookup_delete_ne.
Qed.

Lemma cleanup_shrinks entries : ∀ st,
  (∀ id sd, cl_screenshots (foldl (cleanupEntry locked now maxAgeMs) st entries)
              !! id = Some sd → cl_screenshots st !! id = Some sd) ∧
  (∀ p stats, cl_disk (foldl (cleanupEntry locked now maxAgeMs) st entries)
                !! p = Some stats → cl_disk st !! p = Some stats).
Proof.
  induction entries as [|entry entries IH]; intros st; [done|].
  simpl. destruct (IH (cleanupEntry locked now maxAgeMs st entry)) as [IH1 IH2].
  destruct (cleanupEntry_shrinks st entry) as [H1 H2].
  split; eauto.
Qed.

Lemma cleanup_other entries : ∀ st id,
  id ∉ entries.*1 →
  cl_screenshots (foldl (cleanupEntry locked now maxAgeMs) st entries) !! id
    = cl_screenshots st !! id.
Proof.
  induction entries as [|entry entries IH]; intros st id Hnot; [done|].
  simpl. rewrite IH.
  - apply cleanupEntry_other. intros ->. apply Hnot. by left.
  - intros Hin. apply Hnot. by right.
Qed.

(** What one round does to the record it visits. *)
Lemma cleanupEntry_visited st id sd :
  cl_screenshots st !! id = Some sd →
  let st' := cleanupEntry locked now maxAgeMs st (id, sd) in
  (cl_screenshots st' !! id = None ∧
   cl_deleted st' = S (cl_deleted st) ∧ cl_errors st' = cl_errors st ∧
   size (cl_screenshots st) = S (size (cl_screenshots st')) ∧
   cl_disk st' !! sd_path sd = None ∧
   ∃ stats, cl_disk st !! sd_path sd = Some stats ∧
            maxAgeMs < now - stat_mtime stats ∧ locked (sd_path sd) = false) ∨
  (cl_screenshots st' = cl_screenshots st ∧ cl_disk st' = cl_disk st ∧
   cl_deleted st' = cl_deleted st ∧
   ((cl_errors st' = S (cl_errors st) ∧
     (cl_disk st !! sd_path sd = None ∨ locked (sd_path sd) = true)) ∨
    (cl_errors st' = cl_errors st ∧
     ∃ stats, cl_disk st !! sd_path sd = Some stats ∧
              now - stat_mtime stats ≤ maxAgeMs))).
Proof.
  intros Hid st'. unfold st', cleanupEntry.
  destruct (cl_disk st !! sd_path sd) as [stats|] eqn:Hstat.
  - destruct (maxAgeMs <? now - stat_mtime stats) eqn:Hold.
    + destruct (locked (sd_path sd)) eqn:Hlocked.
      * right. repeat split. left. auto.
      * left. simpl. split; [apply lookup_delete_eq|].
        split; [done|]. split; [done|].
        split.
        { rewrite map_size_delete, Hid. simpl.
          destruct (size (cl_screenshots st)) eqn:Hsize; [|done].
          apply map_size_empty_iff in Hsize. rewrite Hsize in Hid.
          by rewrite lookup_empty in Hid. }
        split; [apply lookup_delete_eq|].
        exists stats. split; [done|]. split; [lia|done].
    + right. repeat split. right. split; [done|]. exists stats.
      split; [done|lia].
  - right. repeat split. left. auto.
Qed.

Lemma cleanup_account entries : ∀ st,
  NoDup entries.*1 →
  (∀ id sd, (id, sd) ∈ entries → cl_screenshots st !! id = Some sd) →
  let st' := foldl (cleanupEntry locked now maxAgeMs) st entries in
  (size (cl_screenshots st') + cl_deleted st'
   = size (cl_screenshots st) + cl_deleted st)%nat ∧
  (cl_deleted st' + cl_errors st'
   ≤ cl_deleted st + cl_errors st + length entries)%nat ∧
  (∀ id sd, (id, sd) ∈ entries →
     match cl_screenshots st' !! id with
     | None =>
         cl_disk st' !! sd_path sd = None ∧
         ∃ stats, cl_disk st !! sd_path sd = Some stats ∧
                  maxAgeMs < now - stat_mtime stats ∧
                  locked (sd_path sd) = false
     | Some sd' =>
         sd' = sd ∧
         (cl_errors st < cl_errors st' ∨
          ∃ stats, cl_disk st !! sd_path sd = Some stats)%nat ∧
         ∀ stats, cl_disk st' !! sd_path sd = Some stats →
                  now - stat_mtime stats ≤ maxAgeMs ∨
                  locked (sd_path sd) = true
     end) ∧
  (cl_errors st ≤ cl_errors st')%nat.
Proof.
  induction entries as [|[id0 sd0] entries IH]; intros st Hnodup Hthere st';
    subst st'.
  - simpl. split; [done|]. split; [lia|]. split; [|done].
    intros id sd Hin. by apply elem_of_nil in Hin.
  - simpl in Hnodup. apply NoDup_cons in Hnodup as [Hfresh Hnodup].
    cbn [foldl].
    set (st1 := cleanupEntry locked now maxAgeMs st (id0, sd0)).
    assert (cl_screenshots st !! id0 = Some sd0) as Hid0
      by (apply Hthere; by left).
    destruct (IH st1 Hnodup) as (Hsize & Hcount & Heach & Herrs).
    { intros id sd Hin. unfold st1. rewrite cleanupEntry_other.
      - apply Hthere. by right.
      - simpl. intros ->. apply Hfresh.
        apply list_elem_of_fmap. by exists (id0, sd). }
    fold st1 in Hsize, Hcount, Heach, Herrs.
    set (st2 := foldl (cleanupEntry locked now maxAgeMs) st1 entries) in *.
    pose proof (cleanup_other entries st1 id0 Hfresh) as Hkeep.
    fold st2 in Hkeep.
    destruct (cleanup_shrinks entries st1) as [_ Hdisk2]. fold st2 in Hdisk2.
    destruct (cleanupEntry_shrinks st (id0, sd0)) as [_ Hdisk1].
    fold st1 in Hdisk1.
    pose proof (cleanupEntry_visited st id0 sd0 Hid0) as Hvisit.
    cbv zeta in Hvisit. fold st1 in Hvisit.
    split; [|split; [|split]].
    + destruct Hvisit as [(_ & Hd & _ & Hs & _)|(Hs & _ & Hd & _)].
      * rewrite Hs. lia.
      * rewrite <- Hs, <- Hd. done.
    + simpl.
      destruct Hvisit as [(_ & Hd & He & _)|(_ & _ & Hd & [[He _]|[He _]])];
        lia.
    + intros id sd Hin. apply elem_of_cons in Hin as [[= -> ->]|Hin].
      * rewrite Hkeep.
        destruct Hvisit as [(Hgone & _ & _ & _ & Hnofile & Hold)
                           |(Hs & Hd & _ & Hcase)].
        -- rewrite Hgone. split; [|done].
           destruct (cl_disk st2 !! sd_path sd0) as [stats|] eqn:Hlook;
             [|done].
           apply Hdisk2 in Hlook. congruence.
        -- rewrite Hs, Hid0. split; [done|]. split.
           ++ destruct Hcase as [[He _]|[_ (stats & Hstat & _)]];
                [left; lia|right; by exists stats].
           ++ intros stats Hlook. apply Hdisk2 in Hlook. rewrite Hd in Hlook.
              destruct Hcase as [[_ [Hnone|Hlocked]]|[_ (stats' & Hstat & Hage)]].
              ** congruence.
              ** by right.
              ** left. congruence.
      * specialize (Heach id sd Hin).
        destruct (cl_screenshots st2 !! id) as [sd'|].
        -- destruct Heach as (-> & Hwhy & Hage). split; [done|].
           split; [|done].
           destruct Hwhy as [Hlt|(stats & Hstat)].
           ++ left.
              destruct Hvisit as [(_ & _ & He & _)
                                 |(_ & _ & _ & [[He _]|[He _]])]; lia.
           ++ right. exists stats. by apply Hdisk1.
        -- destruct Heach as (Hgone & stats & Hstat & Hold & Hunlocked).
           split; [done|]. exists stats. split; [by apply Hdisk1|done].
    + destruct Hvisit as [(_ & _ & He & _)|(_ & _ & _ & [[He _]|[He _]])];
        lia.
Qed.

End Cleanup.

Lemma cleanupRun_account locked now maxAgeDays
    (screenshots : gmap string ScreenshotService.ScreenshotData)
    (disk : gmap string ScreenshotService.FileStat) :
  let maxAgeMs := maxAgeDays * 24 * 60 * 60 * 1000 in
  let st := ScreenshotService.cleanupRun locked now maxAgeDays screenshots disk in
  (size (ScreenshotService.cl_screenshots st)
   + ScreenshotService.cl_deleted st = size screenshots)%nat ∧
  (ScreenshotService.cl_deleted st + ScreenshotService.cl_errors st
   ≤ size screenshots)%nat ∧
  ∀ id sd, screenshots !! id = Some sd →
    match ScreenshotService.cl_screenshots st !! id with
    | None =>
        ScreenshotService.cl_disk st !! ScreenshotService.sd_path sd = None ∧
        ∃ stats, disk !! ScreenshotService.sd_path sd = Some stats ∧
                 maxAgeMs < now - ScreenshotService.stat_mtime stats ∧
                 locked (ScreenshotService.sd_path sd) = false
    | Some sd' =>
        sd' = sd ∧
        ((0 < ScreenshotService.cl_errors st)%nat ∨
         ∃ stats, disk !! ScreenshotService.sd_path sd = Some stats) ∧
        ∀ stats,
          ScreenshotService.cl_disk st !! ScreenshotService.sd_path sd
            = Some stats →
          now - ScreenshotService.stat_mtime stats ≤ maxAgeMs ∨
          locked (ScreenshotService.sd_path sd) = true
    end.
Proof.
  intros maxAgeMs st. subst st maxAgeMs.
  unfold ScreenshotService.cleanupRun. cbv zeta.
  pose proof (cleanup_account locked now (maxAgeDays * 24 * 60 * 60 * 1000)
                (map_to_list screenshots)
                {| ScreenshotService.cl_screenshots := screenshots;
                   ScreenshotService.cl_disk := disk;
                   ScreenshotService.cl_deleted := O;
                   ScreenshotService.cl_errors := O |}
                (NoDup_fst_map_to_list screenshots)) as Hacc.
  cbv zeta in Hacc.
  set (st := foldl _ _ _) in *.
  destruct Hacc as (Hsize & Hcount & Heach & _).
  { intros id sd Hin. by apply elem_of_map_to_list in Hin. }
  simpl in Hsize, Hcount. rewrite length_map_to_list in Hcount.
  split; [lia|]. split; [lia|].
  intros id sd Hid. apply elem_of_map_to_list in Hid.
  exact (Heach id sd Hid).
Qed.

(** X20: the report of [cleanupOldScreenshots] counts what is left, not
    what was looked at: [total] is the number of records after the sweep,
    [total] and [deleted] add up to the number of records before it, and
    [deleted] and [errors] together never exceed that number. *)
Theorem cleanup_report_accounts locked now maxAgeDays
    (screenshots : gmap string ScreenshotService.ScreenshotData)
    (disk : gmap string ScreenshotService.FileStat) :
  let report :=
    (ScreenshotService.cleanupOldScreenshots locked now maxAgeDays
       screenshots disk).2 in
  let st :=
    (ScreenshotService.cleanupOldScreenshots locked now maxAgeDays
       screenshots disk).1 in
  ScreenshotService.cr_total report
    = size (ScreenshotService.cl_screenshots st) ∧
  (ScreenshotService.cr_total report + ScreenshotService.cr_deleted report
   = size screenshots)%nat ∧
  (ScreenshotService.cr_deleted report + ScreenshotService.cr_errors report
   ≤ size screenshots)%nat.
Proof.
  destruct (cleanupRun_account locked now maxAgeDays screenshots disk)
    as (Hsize & Hcount & _).
  by repeat split.
Qed.

(** X21: [cleanupOldScreenshots] drops a record only together with its
    file, and only when that file was older than the limit: a dropped
    record had a file on disk whose age exceeded [maxAgeDays] days, and
    the file is gone afterwards; a record that is kept, and whose file is
    still on disk, has a file no older than the limit, unless the file
    could not be unlinked. *)
Theorem cleanup_drops_only_old locked now maxAgeDays
    (screenshots : gmap string ScreenshotService.ScreenshotData)
    (disk : gmap string ScreenshotService.FileStat) id sd :
  screenshots !! id = Some sd →
  let st := ScreenshotService.cleanupRun locked now maxAgeDays screenshots disk in
  match ScreenshotService.cl_screenshots st !! id with
  | None =>
      ScreenshotService.cl_disk st !! ScreenshotService.sd_path sd = None ∧
      ∃ stats, disk !! ScreenshotService.sd_path sd = Some stats ∧
               maxAgeDays * 24 * 60 * 60 * 1000
                 < now - ScreenshotService.stat_mtime stats
  | Some sd' =>
      sd' = sd ∧
      ∀ stats,
        ScreenshotService.cl_disk st !! ScreenshotService.sd_path sd
          = Some stats →
        now - ScreenshotService.stat_mtime stats
          ≤ maxAgeDays * 24 * 60 * 60 * 1000 ∨
        locked (ScreenshotService.sd_path sd) = true
  end.
Proof.
  intros Hid st.
  destruct (cleanupRun_account locked now maxAgeDays screenshots disk)
    as (_ & _ & Heach).
  specialize (Heach id sd Hid). fold st in Heach.
  destruct (ScreenshotService.cl_screenshots st !! id) as [sd'|].
  - by destruct Heach as (-> & _ & Hage).
  - destruct Heach as (Hgone & stats & Hstat & Hold & _).
    split; [done|]. by exists stats.
Qed.

Lemma cleanup_drops_only_old_witness :
  let st := ScreenshotService.cleanupRun (fun _ => false) Scenarios.eightDays 7
              Scenarios.shots Scenarios.shotsDisk in
  ScreenshotService.cl_screenshots st !! "screenshot-1"%string = None ∧
  ScreenshotService.cl_disk st !! "/shots/old.png"%string = None ∧
  is_Some (ScreenshotService.cl_screenshots st !! "screenshot-2"%string).
Proof.
  intros st.
  assert (ScreenshotService.cl_screenshots st !! "screenshot-1"%string = None)
    as Hgone by (vm_compute; reflexivity).
  split; [exact Hgone|]. split; [|vm_compute; eauto].
  destruct (Scenarios.shots !! "screenshot-1"%string) as [sd|] eqn:Hsd;
    [|vm_compute in Hsd; discriminate].
  pose proof (cleanup_drops_only_old (fun _ => false) Scenarios.eightDays 7
                Scenarios.shots Scenarios.shotsDisk "screenshot-1" sd Hsd)
    as Hdrop.
  cbv zeta in Hdrop. fold st in Hdrop. rewrite Hgone in Hdrop.
  destruct Hdrop as [Hfile _].
  vm_compute in Hsd. injection Hsd as <-. exact Hfile.
Defined.

(** X22: a record whose file has vanished from the disk is never purged:
    [cleanupOldScreenshots] keeps it and counts it as an error, every time
    it runs. *)
Theorem cleanup_keeps_vanished locked now maxAgeDays
    (screenshots : gmap string ScreenshotService.ScreenshotData)
    (disk : gmap string ScreenshotService.FileStat) id sd :
  screenshots !! id = Some sd →
  disk !! ScreenshotService.sd_path sd = None →
  let report :=
    (ScreenshotService.cleanupOldScreenshots locked now maxAgeDays
       screenshots disk).2 in
  let st :=
    (ScreenshotService.cleanupOldScreenshots locked now maxAgeDays
       screenshots disk).1 in
  ScreenshotService.cl_screenshots st !! id = Some sd ∧
  (0 < ScreenshotService.cr_errors report)%nat.
Proof.
  intros Hid Hvanished report st.
  destruct (cleanupRun_account locked now maxAgeDays screenshots disk)
    as (_ & _ & Heach).
  specialize (Heach id sd Hid).
  change (ScreenshotService.cleanupRun locked now maxAgeDays screenshots disk)
    with st in Heach.
  destruct (ScreenshotService.cl_screenshots st !! id) as [sd'|].
  - destruct Heach as (-> & [Herr|(stats & Hstat)] & _); [done|congruence].
  - destruct Heach as (_ & stats & Hstat & _). congruence.
Qed.

Lemma cleanup_keeps_vanished_witness :
  is_Some (ScreenshotService.cl_screenshots
             (ScreenshotService.cleanupOldScreenshots (fun _ => false)
                Scenarios.eightDays 7 Scenarios.shots Scenarios.shotsDisk).1
           !! "screenshot-3"%string).
Proof.
  destruct (Scenarios.shots !! "screenshot-3"%string) as [sd|] eqn:Hsd;
    [|vm_compute in Hsd; discriminate].
  destruct (cleanup_keeps_vanished (fun _ => false) Scenarios.eightDays 7
              Scenarios.shots Scenarios.shotsDisk "screenshot-3" sd Hsd)
    as [Hkept _].
  - vm_compute in Hsd. injection Hsd as <-. vm_compute. reflexivity.
  - by exists sd.
Defined.

(** ** [screenshotService.js]: the file names of a batch *)





(** ** [portChecker.js]: the range scan *)

(** X1: [findAvailablePort(startPort, endPort)] returns a port exactly
    when that port is the lowest free one of the inclusive range, and
    throws exactly when no port of the range is free, in particular when
    the range is empty. *)
Theorem findAvailablePort_least available startPort endPort :
  (∀ p, PortChecker.findAvailablePort available startPort endPort = Ok p ↔
        startPort ≤ p ≤ endPort ∧ available p = true ∧
        ∀ q, startPort ≤ q < p → available q = false) ∧
  (PortChecker.findAvailablePort available startPort endPort
     = Err (NoAvailablePorts startPort endPort) ↔
   ∀ q, startPort ≤ q ≤ endPort → available q = false).
Proof.
  pose proof (PortChecker_findAvailablePort_lowest available startPort endPort)
    as Hscan.
  destruct (PortChecker.findAvailablePort available startPort endPort)
    as [found|e] eqn:Hfound.
  - destruct Hscan as (Hrange & Hfree & Hbelow). split.
    + intros p. split.
      * by intros [= <-].
      * intros (Hp & Hpfree & Hpbelow). f_equal.
        destruct (Z.lt_trichotomy found p) as [Hlt|[Heq|Hgt]]; [|done|].
        -- rewrite Hpbelow in Hfree by lia. done.
        -- rewrite Hbelow in Hpfree by lia. done.
    + split; [done|]. intros Hnone. rewrite Hnone in Hfree by lia. done.
  - destruct Hscan as [Hkind Hnone]. split.
    + intros p. split; [done|].
      intros (Hp & Hpfree & _). rewrite Hnone in Hpfree by lia. done.
    + split; [done|]. intros _. f_equal.
      unfold PortChecker.findAvailablePort in Hfound.
      destruct (PortChecker.scanPorts _ _ _); [done|]. by injection Hfound.
Qed.

(** ** A failed start, from the spawn to the rejection *)

Lemma run_as_exec events : ∀ m, run m events = exec m (Deliver <$> events).
Proof. induction events as [|e events IH]; intros m; [done|]. apply IH. Qed.












(** ** The environment of the spawned child *)

(** C10: in the environment [start] spawns the child with, every key of
    [options.env] has the caller's value, also when it is PORT, BROWSER,
    FORCE_COLOR or a variable of the supervisor's environment; a key
    absent from [options.env] has the injected value when it is one of
    PORT (the port recorded for the child), BROWSER and FORCE_COLOR, and
    the supervisor's inherited value otherwise. *)
Theorem start_child_environment w projectPath options m m' c :
  start w projectPath options m = (m', Ok c) →
  ∃ ch info,
    children m' !! c = Some ch ∧
    processes m' !! nextPid w = Some info ∧
    ∀ key,
      sp_env (c_spawn ch) !! key =
        match default ∅ (opt_env options) !! key with
        | Some own => Some own
        | None =>
            match Spec.injected (pi_port info) !! key with
            | Some value => Some value
            | None => processEnv w !! key
            end
        end.
Proof.
  intros Hstart.
  apply start_Ok_inv in Hstart
    as (port & ch & _ & _ & -> & Hinfo & _ & _ & _ & Hspawn & ->).
  exists ch, (c_info ch). simpl.
  split; [by rewrite list_lookup_middle|].
  split; [by rewrite lookup_insert_eq|].
  intros key. rewrite Hspawn, Hinfo. simpl.
  apply composeEnv_precedence.
Qed.

Lemma start_child_environment_witness :
  ∃ ch, children Scenarios.withOwnEnv !! O = Some ch ∧
    sp_env (c_spawn ch) !! "PORT"%string = Some (EnvString "9999") ∧
    sp_env (c_spawn ch) !! "BROWSER"%string = Some (EnvString "none") ∧
    sp_env (c_spawn ch) !! "HOME"%string = Some (EnvString "/home/dev").
Proof.
  destruct (start_child_environment Examples.quietWorld "/srv/app"
              Scenarios.ownEnv (newManager defaultConfig)
              Scenarios.withOwnEnv O) as (ch & info & Hc & Hinfo & Henv).
  - vm_compute. reflexivity.
  - exists ch. split; [exact Hc|].
    rewrite !Henv. vm_compute in Hinfo. injection Hinfo as <-.
    repeat split; vm_compute; reflexivity.
Defined.
